(** * The call-signalling relay of [registerRoutes]

    A shallow embedding of the WebSocket signalling server that
    [registerRoutes] sets up (the [wss.on('connection')] block): the two
    maps [connections] and [activeCalls], the per-connection variable
    [userId], the [message] handler with its six cases and the [close]
    handler.

    Conventions of the embedding:
    - a WebSocket object is a handle (a natural number); its mutable
      fields live in the [sockets] table of the world;
    - [connections] is a [gmap] from user id to handle;
    - [activeCalls] is a JavaScript [Map], whose iteration order is the
      insertion order: an association list with unique keys;
    - [Math.random().toString(36)] is an input of the [call-offer] step;
    - every frame the server transmits is appended to the log [sent],
      paired with the handle of the socket it was written to. *)

From stdpp Require Import gmap strings list fin_maps sorting.

Open Scope string_scope.
Open Scope list_scope.

(** ** Data *)

(** [readyState] of a server-side socket. Sockets handed to
    [wss.on('connection')] are past the opening handshake, so the
    CONNECTING state does not occur. *)
Inductive ReadyState := OPEN | CLOSING | CLOSED.

Inductive CallType := voice | video.

Inductive CallStatus := ringing | active | ended.

(** Opaque structured payloads ([offer], [answer], [candidate]), as
    [JSON.parse] yields them. *)
#[local] Unset Elimination Schemes.
Inductive Json :=
| JNull
| JBool (b : bool)
| JNum (z : Z)
| JStr (s : string)
| JArr (items : list Json)
| JObj (fields : list (string * Json)).
#[local] Set Elimination Schemes.

(** Frames a client sends, after [JSON.parse], with the field types of
    the protocol (ids are strings); [Unknown] stands for any other
    [type], which no [case] of the [switch] matches, and for text that
    [JSON.parse] rejects, which the [catch] only logs. *)
Inductive ClientMsg :=
| Register (userId : string)
| CallOffer (receiverId : string) (offer : Json) (callType : CallType)
            (callerName : string)
| CallAnswer (callId : string) (answer : Json)
| CallReject (callId : string)
| CallEnd (callId : string)
| IceCandidate (callId : string) (candidate : Json)
| Unknown.

(** Frames the server sends, before [JSON.stringify]. *)
Inductive ServerMsg :=
| CallInitiated (callId : string)
| IncomingCall (callId : string) (callerId : option string)
               (callerName : string) (callType : CallType) (offer : Json)
| CallFailed (reason : string)
| CallAnswered (callId : string) (answer : Json)
| CallRejected (callId : string)
| CallEnded (callId : string) (reason : option string)
| IceCandidateFwd (callId : string) (candidate : Json).

(** The value type of [activeCalls]. [callerId] is [userId!], which is
    [null] when the offering connection never registered. *)
Record Call := mkCall {
  callId : string;
  callerId : option string;
  receiverId : string;
  type : CallType;
  status : CallStatus
}.

(** Per-connection state: the closure variable [userId] and the
    socket's [readyState]. *)
Record Socket := mkSocket {
  userId : option string;
  readyState : ReadyState
}.

Record World := mkWorld {
  sockets : gmap nat Socket;
  connections : gmap string nat;
  activeCalls : list (string * Call);
  sent : list (nat * ServerMsg)
}.

Definition init : World := mkWorld ∅ ∅ [] [].

Inductive Event :=
| Connection (ws : nat)
| Message (ws : nat) (random36 : string) (message : ClientMsg)
| Close (ws : nat).

#[global] Instance ReadyState_eq_dec : EqDecision ReadyState.
Proof. solve_decision. Defined.

#[global] Instance CallStatus_eq_dec : EqDecision CallStatus.
Proof. solve_decision. Defined.

(** ** The [Map] operations used on [activeCalls] *)

Fixpoint Map_get (k : string) (m : list (string * Call)) : option Call :=
  match m with
  | [] => None
  | (k', v) :: m' => if decide (k' = k) then Some v else Map_get k m'
  end.

(** [Map.set] keeps the position of a key that is already present. *)
Fixpoint Map_set (k : string) (v : Call) (m : list (string * Call))
  : list (string * Call) :=
  match m with
  | [] => [(k, v)]
  | (k', v') :: m' =>
      if decide (k' = k) then (k, v) :: m' else (k', v') :: Map_set k v m'
  end.

Definition Map_delete (k : string) (m : list (string * Call))
  : list (string * Call) :=
  filter (λ e, e.1 ≠ k) m.

Definition keys (m : list (string * Call)) : list string := m.*1.

(** ** Small helpers *)

(** [s.substring(n)]: the characters from index [n] to the end. *)
Fixpoint substring_from (n : nat) (s : string) : string :=
  match n, s with
  | O, _ => s
  | S n', String _ s' => substring_from n' s'
  | S _, EmptyString => EmptyString
  end.

Definition set_status (st : CallStatus) (c : Call) : Call :=
  mkCall (callId c) (callerId c) (receiverId c) (type c) st.

Definition with_calls (m : list (string * Call)) (w : World) : World :=
  mkWorld (sockets w) (connections w) m (sent w).

Definition ws_open (w : World) (k : nat) : bool :=
  match sockets w !! k with
  | Some s => bool_decide (readyState s = OPEN)
  | None => false
  end.

(** A frame goes out on socket [k]. *)
Definition transmit (k : nat) (m : ServerMsg) (w : World) : World :=
  mkWorld (sockets w) (connections w) (activeCalls w) (sent w ++ [(k, m)]).

(** [ws.send(...)] without a guard: on a socket that is no longer open
    nothing is transmitted. *)
Definition ws_send (k : nat) (m : ServerMsg) (w : World) : World :=
  if ws_open w k then transmit k m w else w.

(** [connections.get(id)], where [id] may be [null]. *)
Definition connections_get (w : World) (id : option string) : option nat :=
  match id with
  | Some u => connections w !! u
  | None => None
  end.

(** [if (x && x.readyState === WebSocket.OPEN) x.send(...)]. *)
Definition send_if_open (target : option nat) (m : ServerMsg) (w : World)
  : World :=
  match target with
  | Some k => if ws_open w k then transmit k m w else w
  | None => w
  end.

(** [call.callerId === userId ? call.receiverId : call.callerId]. *)
Definition otherUserId (call : Call) (userId : option string)
  : option string :=
  if decide (callerId call = userId) then Some (receiverId call)
  else callerId call.

(** ** The [message] handler *)

Definition on_register (ws : nat) (s : Socket) (u : string) (w : World)
  : World :=
  mkWorld (<[ws := mkSocket (Some u) (readyState s)]> (sockets w))
          (<[u := ws]> (connections w))
          (activeCalls w) (sent w).

Definition on_call_offer (ws : nat) (s : Socket) (random36 : string)
    (receiverId : string) (offer : Json) (callType : CallType)
    (callerName : string) (w : World) : World :=
  let callId := substring_from 7 random36 in
  let w1 :=
    with_calls
      (Map_set callId (mkCall callId (userId s) receiverId callType ringing)
               (activeCalls w)) w in
  let w2 := ws_send ws (CallInitiated callId) w1 in
  match connections w2 !! receiverId with
  | Some receiverWs =>
      if ws_open w2 receiverWs
      then transmit receiverWs
             (IncomingCall callId (userId s) callerName callType offer) w2
      else ws_send ws (CallFailed "User not available") w2
  | None => ws_send ws (CallFailed "User not available") w2
  end.

Definition on_call_answer (answerCallId : string) (answer : Json)
    (w : World) : World :=
  match Map_get answerCallId (activeCalls w) with
  | Some call =>
      let w1 :=
        with_calls (Map_set answerCallId (set_status active call)
                            (activeCalls w)) w in
      send_if_open (connections_get w1 (callerId call))
                   (CallAnswered answerCallId answer) w1
  | None => w
  end.

(** The shared body of [case 'call-reject'] and [case 'call-end'];
    [reject] tells which of the two [message.type] is. *)
Definition on_call_end (s : Socket) (reject : bool) (endCallId : string)
    (w : World) : World :=
  match Map_get endCallId (activeCalls w) with
  | Some endCall =>
      let w1 :=
        with_calls (Map_set endCallId (set_status ended endCall)
                            (activeCalls w)) w in
      let w2 :=
        send_if_open (connections_get w1 (otherUserId endCall (userId s)))
                     (if reject then CallRejected endCallId
                      else CallEnded endCallId None) w1 in
      with_calls (Map_delete endCallId (activeCalls w2)) w2
  | None => w
  end.

Definition on_ice_candidate (s : Socket) (candidateCallId : string)
    (candidate : Json) (w : World) : World :=
  match Map_get candidateCallId (activeCalls w) with
  | Some candidateCall =>
      send_if_open
        (connections_get w (otherUserId candidateCall (userId s)))
        (IceCandidateFwd candidateCallId candidate) w
  | None => w
  end.

Definition on_message (ws : nat) (random36 : string) (message : ClientMsg)
    (w : World) : World :=
  match sockets w !! ws with
  | None => w
  | Some s =>
      match message with
      | Register u => on_register ws s u w
      | CallOffer receiverId offer callType callerName =>
          on_call_offer ws s random36 receiverId offer callType callerName w
      | CallAnswer cid answer => on_call_answer cid answer w
      | CallReject cid => on_call_end s true cid w
      | CallEnd cid => on_call_end s false cid w
      | IceCandidate cid candidate => on_ice_candidate s cid candidate w
      | Unknown => w
      end
  end.

(** ** The [close] handler *)

(** The guard of the loop body:
    [call.callerId === userId || call.receiverId === userId]. *)
Definition involves (u : string) (call : Call) : bool :=
  bool_decide (callerId call = Some u) || bool_decide (receiverId call = u).

(** [for (const [callId, call] of activeCalls.entries())]: the entries
    still to visit are the first argument. Deleting the entry being
    visited does not disturb the iteration. *)
Fixpoint close_loop (u : string) (entries : list (string * Call))
    (w : World) : World :=
  match entries with
  | [] => w
  | (callId, call) :: rest =>
      if involves u call then
        let w1 :=
          send_if_open (connections_get w (otherUserId call (Some u)))
                       (CallEnded callId (Some "User disconnected")) w in
        close_loop u rest
          (with_calls (Map_delete callId (activeCalls w1)) w1)
      else close_loop u rest w
  end.

(** [if (userId)]: [null] and the empty string are falsy. *)
Definition truthy (userId : option string) : option string :=
  match userId with
  | Some u => if decide (u = EmptyString) then None else Some u
  | None => None
  end.

(** The transport marks the socket closed before it emits [close]. *)
Definition on_close (ws : nat) (w : World) : World :=
  match sockets w !! ws with
  | None => w
  | Some s =>
      let w0 :=
        mkWorld (<[ws := mkSocket (userId s) CLOSED]> (sockets w))
                (connections w) (activeCalls w) (sent w) in
      match truthy (userId s) with
      | Some u =>
          let w1 :=
            mkWorld (sockets w0) (delete u (connections w0))
                    (activeCalls w0) (sent w0) in
          close_loop u (activeCalls w1) w1
      | None => w0
      end
  end.

(** ** The server as a transition system *)

(** [wss.on('connection')]: a new socket, open, with [userId = null]. *)
Definition on_connection (ws : nat) (w : World) : World :=
  match sockets w !! ws with
  | Some _ => w
  | None =>
      mkWorld (<[ws := mkSocket None OPEN]> (sockets w))
              (connections w) (activeCalls w) (sent w)
  end.

Definition step (e : Event) (w : World) : World :=
  match e with
  | Connection ws => on_connection ws w
  | Message ws random36 message => on_message ws random36 message w
  | Close ws => on_close ws w
  end.

Fixpoint run (tr : list Event) (w : World) : World :=
  match tr with
  | [] => w
  | e :: tr' => run tr' (step e w)
  end.

(** The draw passed with frames other than [call-offer], which do not
    call [Math.random]. *)
Definition no_draw : string := EmptyString.

(** A scenario used by the examples: alice on socket 1, bob on socket 2. *)
Definition two_users : World :=
  run [Connection 1; Message 1 no_draw (Register "alice");
       Connection 2; Message 2 no_draw (Register "bob")] init.

(** ** Predicates the properties are stated with *)

(** Keys of a [Map] are unique. *)
Definition wf_calls (w : World) : Prop := NoDup (keys (activeCalls w)).

(** No stored session is in the terminal state. *)
Definition no_ended (w : World) : Prop :=
  Forall (λ e, status e.2 ≠ ended) (activeCalls w).

(** Every stored session has two different parties. *)
Definition distinct_parties (w : World) : Prop :=
  Forall (λ e, callerId e.2 ≠ Some (receiverId e.2)) (activeCalls w).

(** The event is a [call-offer] whose sender names its own id. *)
Definition self_offer (w : World) (e : Event) : Prop :=
  match e with
  | Message ws _ (CallOffer receiverId _ _ _) =>
      ∃ s, sockets w !! ws = Some s ∧ userId s = Some receiverId
  | _ => False
  end.



(** The state of call [cid] as the store shows it between two steps; a
    session that is not stored counts as ended. *)
Definition observed (cid : string) (w : World) : CallStatus :=
  match Map_get cid (activeCalls w) with
  | Some c => status c
  | None => ended
  end.

Definition rank (st : CallStatus) : nat :=
  match st with ringing => 0 | active => 1 | ended => 2 end.

(** The event is a [call-offer] for which the random draw yields [cid]. *)
Definition generates (cid : string) (e : Event) : Prop :=
  match e with
  | Message _ random36 (CallOffer _ _ _ _) => substring_from 7 random36 = cid
  | _ => False
  end.

(** The event is a frame that names call [cid]. *)
Definition references (cid : string) (e : Event) : Prop :=
  match e with
  | Message _ _ (CallAnswer c _) | Message _ _ (CallReject c)
  | Message _ _ (CallEnd c) | Message _ _ (IceCandidate c _) => c = cid
  | _ => False
  end.



(** The worlds a trace goes through, the first one included. *)
Fixpoint states (tr : list Event) (w : World) : list World :=
  w :: match tr with
       | [] => []
       | e :: tr' => states tr' (step e w)
       end.

(** The frames a guarded send to [target] puts on the wire. *)
Definition delivery (w : World) (target : option nat) (m : ServerMsg)
  : list (nat * ServerMsg) :=
  match target with
  | Some k => if ws_open w k then [(k, m)] else []
  | None => []
  end.

(** The frame the [close] handler of user [u] sends for one entry. *)
Definition close_frames (u : string) (w : World) (e : string * Call)
  : list (nat * ServerMsg) :=
  if involves u e.2
  then delivery w (connections_get w (otherUserId e.2 (Some u)))
                (CallEnded e.1 (Some "User disconnected"))
  else [].

(** Scenarios used by the examples. *)
Definition ringing_call : World :=
  step (Message 1 "0.k3j2x9ab7q" (CallOffer "bob" JNull video "Alice"))
       two_users.

Definition active_call : World :=
  step (Message 2 no_draw (CallAnswer "9ab7q" (JStr "sdp"))) ringing_call.

(** * The message route, the in-memory storage and the client

    Further parts of the repository, each in a module of its own: the
    handler of [POST /api/chats/:chatId/messages] of [registerRoutes],
    the chat, message and typing-indicator methods of [MemStorage], and
    the signalling state of the browser-side [WebRTCService]. Dates are
    their millisecond values; the results of [generateId()],
    [Date.now()] and [new Date()] are inputs of the methods that call
    them. *)

Module Schema.

(** [typeof chats.$inferSelect]. *)
Record Chat := mkChat {
  chat_id : string;
  user1Id : string;
  user2Id : string;
  lastMessageId : option string;
  lastMessageAt : option Z;
  chat_createdAt : option Z
}.

(** [z.infer<typeof insertMessageSchema>]: the parsed request body. *)
Record InsertMessage := mkInsertMessage {
  ins_toUserId : string;
  ins_content : string;
  ins_messageType : option string;
  ins_fileName : option string;
  ins_fileSize : option Z;
  ins_mimeType : option string;
  ins_isWhisper : option bool
}.

(** [typeof messages.$inferSelect]. *)
Record Message := mkMessage {
  msg_id : string;
  fromUserId : string;
  toUserId : string;
  content : string;
  messageType : option string;
  fileName : option string;
  fileSize : option Z;
  mimeType : option string;
  isWhisper : option bool;
  whisperExpiresAt : option Z;
  isSeen : option bool;
  seenAt : option Z;
  msg_createdAt : option Z
}.

(** [typeof typingIndicators.$inferSelect]. *)
Record TypingIndicator := mkTypingIndicator {
  ti_id : string;
  ti_userId : string;
  ti_chatId : string;
  isTyping : option bool;
  ti_createdAt : option Z
}.

(** [{...messageData, toUserId}]. *)
Definition with_toUserId (to : string) (d : InsertMessage) : InsertMessage :=
  mkInsertMessage to (ins_content d) (ins_messageType d) (ins_fileName d)
                  (ins_fileSize d) (ins_mimeType d) (ins_isWhisper d).

(** Truthiness of an optional string: [null], [undefined] and the
    empty string are falsy. *)
Definition truthy_string (s : option string) : bool :=
  match s with
  | Some EmptyString | None => false
  | Some _ => true
  end.

End Schema.

Module Routes.
Import Schema.

(** The outcome of awaiting a promise of the storage. *)
Inductive Fallible (A : Type) :=
| Ok (a : A)
| Throws.
Arguments Ok {A} a.
Arguments Throws {A}.

(** What the handler answers: [res.json(message)], or
    [res.status(code).json({ message })]. *)
Inductive Response :=
| Json_message (m : Message)
| Status (code : nat) (message : string).

Definition allowedTypes : list string :=
  ["image/"; "video/"; "audio/"; "text/"; "application/pdf";
   "application/msword";
   "application/vnd.openxmlformats-officedocument.wordprocessingml.document";
   "application/vnd.ms-excel";
   "application/vnd.openxmlformats-officedocument.spreadsheetml.sheet";
   "application/zip"; "application/x-zip-compressed"].

(** [allowedTypes.some(type => mimeType.startsWith(type))]. *)
Definition allowed_mime (mime : string) : bool :=
  existsb (λ t, String.prefix t mime) allowedTypes.

(** The block guarded by [messageData.messageType === "file"]: the
    message of the first 400 reply it sends, if any. *)
Definition validate_file (messageData : InsertMessage) : option string :=
  if bool_decide (ins_messageType messageData = Some "file") then
    if match ins_fileSize messageData with
       | Some z => bool_decide (z ≠ 0%Z) && bool_decide (10 * 1024 * 1024 < z)%Z
       | None => false
       end
    then Some "File size too large. Maximum size is 10MB."
    else if negb (truthy_string (ins_fileName messageData))
            || negb (truthy_string (ins_mimeType messageData))
    then Some "File metadata is required for file messages"
    else if negb (allowed_mime (default EmptyString (ins_mimeType messageData)))
    then Some "File type not allowed"
    else None
  else None.

(** The handler of [POST /api/chats/:chatId/messages]. [body] is the
    result of [insertMessageSchema.parse(req.body)], [None] when it
    throws; the two storage methods are parameters, and a rejected
    promise or a thrown error ends in the [catch] block. *)
Definition post_message
    (getChatById : string → Fallible (option Chat))
    (createMessage : string → InsertMessage → Fallible Message)
    (userId chatId : string) (body : option InsertMessage) : Response :=
  match body with
  | None => Status 500 "Failed to send message"
  | Some messageData =>
      match getChatById chatId with
      | Throws => Status 500 "Failed to send message"
      | Ok None => Status 404 "Chat not found"
      | Ok (Some chat) =>
          if bool_decide (user1Id chat ≠ userId)
             && bool_decide (user2Id chat ≠ userId)
          then Status 403 "Access denied"
          else
            let toUserId :=
              if bool_decide (user1Id chat = userId) then user2Id chat
              else user1Id chat in
            match validate_file messageData with
            | Some text => Status 400 text
            | None =>
                match createMessage userId (with_toUserId toUserId messageData) with
                | Ok message => Json_message message
                | Throws => Status 500 "Failed to send message"
                end
            end
      end
  end.

(** For the examples: a storage with one chat, "c1" between alice and bob, that stores
    what it is given. *)
Definition one_chat (chatId : string) : Fallible (option Chat) :=
  Ok (if bool_decide (chatId = "c1")
      then Some (mkChat "c1" "alice" "bob" None None None) else None).

Definition store_it (from : string) (d : InsertMessage) : Fallible Message :=
  Ok (mkMessage "m1" from (ins_toUserId d) (ins_content d) (ins_messageType d)
        (ins_fileName d) (ins_fileSize d) (ins_mimeType d) (ins_isWhisper d)
        None (Some false) None None).

End Routes.

(** A JavaScript [Map] with string keys: an association list in
    insertion order. *)
Module JsMap.
Section ops.
Context {V : Type}.

Fixpoint get (k : string) (m : list (string * V)) : option V :=
  match m with
  | [] => None
  | (k', v) :: m' => if decide (k' = k) then Some v else get k m'
  end.

Fixpoint set (k : string) (v : V) (m : list (string * V))
  : list (string * V) :=
  match m with
  | [] => [(k, v)]
  | (k', v') :: m' =>
      if decide (k' = k) then (k, v) :: m' else (k', v') :: set k v m'
  end.

Definition delete (k : string) (m : list (string * V)) : list (string * V) :=
  filter (λ e, e.1 ≠ k) m.

Definition values (m : list (string * V)) : list V := m.*2.

(** [for (const [key, v] of m.entries()) if (p(v)) m.delete(key)];
    the entries still to visit are the first argument. *)
Fixpoint delete_where (p : V → bool) (entries m : list (string * V))
  : list (string * V) :=
  match entries with
  | [] => m
  | (key, v) :: rest =>
      if p v then delete_where p rest (delete key m)
      else delete_where p rest m
  end.

End ops.
End JsMap.

Module MemStorage.
Import Schema.

(** The maps of [MemStorage] that the methods below read or write; its
    [users] map is touched by none of them. *)
Record Store := mkStore {
  messages : list (string * Message);
  chats : list (string * Chat);
  typingIndicators : list (string * TypingIndicator)
}.

(** The value of a date in a comparison; [null] counts as 0. *)
Definition date_value (d : option Z) : Z := default 0%Z d.

Definition getChatById (chatId : string) (st : Store) : option Chat :=
  JsMap.get chatId (chats st).

(** The test of the search loop of [getOrCreateChat]. *)
Definition same_pair (a b : string) (chat : Chat) : bool :=
  (bool_decide (user1Id chat = a) && bool_decide (user2Id chat = b))
  || (bool_decide (user1Id chat = b) && bool_decide (user2Id chat = a)).

Fixpoint find_chat (a b : string) (cs : list Chat) : option Chat :=
  match cs with
  | [] => None
  | chat :: cs' => if same_pair a b chat then Some chat else find_chat a b cs'
  end.

(** [newId] is [generateId()], [t1] and [t2] the two [new Date()] of the
    new chat; they are used only when no chat of the pair exists. *)
Definition getOrCreateChat (newId : string) (t1 t2 : Z)
    (user1Id user2Id : string) (st : Store) : Chat * Store :=
  match find_chat user1Id user2Id (JsMap.values (chats st)) with
  | Some chat => (chat, st)
  | None =>
      let chat := mkChat newId user1Id user2Id None (Some t1) (Some t2) in
      (chat, mkStore (messages st) (JsMap.set newId chat (chats st))
                     (typingIndicators st))
  end.

(** Assignment to fields of the first chat of the pair, the object
    that [getOrCreateChat] returns. *)
Fixpoint touch_chat (a b : string) (f : Chat → Chat)
    (cs : list (string * Chat)) : list (string * Chat) :=
  match cs with
  | [] => []
  | (k, chat) :: cs' =>
      if same_pair a b chat then (k, f chat) :: cs'
      else (k, chat) :: touch_chat a b f cs'
  end.

(** [x || null] on an optional number: 0 is falsy. *)
Definition or_null_number (z : option Z) : option Z :=
  match z with
  | Some 0%Z | None => None
  | Some _ => z
  end.

Definition or_null_string (s : option string) : option string :=
  if truthy_string s then s else None.

(** [messageId] and [chatId] are the two [generateId()], [tExpire] is
    [Date.now()] of the whisper expiry, [tCreated] the [new Date()] of
    [createdAt], [t1] and [t2] those of a new chat. *)
Definition createMessage (messageId chatId : string)
    (tExpire tCreated t1 t2 : Z) (from : string) (messageData : InsertMessage)
    (st : Store) : Message * Store :=
  let whisper := bool_decide (ins_isWhisper messageData = Some true) in
  let message :=
    mkMessage messageId from (ins_toUserId messageData)
      (ins_content messageData)
      (Some (if truthy_string (ins_messageType messageData)
             then default EmptyString (ins_messageType messageData)
             else "text"))
      (or_null_string (ins_fileName messageData))
      (or_null_number (ins_fileSize messageData))
      (or_null_string (ins_mimeType messageData))
      (Some whisper)
      (if whisper then Some (tExpire + 10 * 1000)%Z else None)
      (Some false) None (Some tCreated) in
  let st1 :=
    mkStore (JsMap.set messageId message (messages st)) (chats st)
            (typingIndicators st) in
  let '(_, st2) :=
    getOrCreateChat chatId t1 t2 from (ins_toUserId messageData) st1 in
  (message,
   mkStore (messages st2)
     (touch_chat from (ins_toUserId messageData)
        (λ chat, mkChat (chat_id chat) (user1Id chat) (user2Id chat)
                        (Some messageId) (Some tCreated) (chat_createdAt chat))
        (chats st2))
     (typingIndicators st2)).

(** The test of the loop of [deleteExpiredWhisperMessages]. *)
Definition expired (now : Z) (message : Message) : bool :=
  bool_decide (isWhisper message = Some true)
  && match whisperExpiresAt message with
     | Some t => bool_decide (t ≤ now)%Z
     | None => false
     end.

Definition deleteExpiredWhisperMessages (now : Z) (st : Store) : Store :=
  mkStore (JsMap.delete_where (expired now) (messages st) (messages st))
          (chats st) (typingIndicators st).

(** [newId] is [generateId()] and [now] is [new Date()]; both are used
    only when [isTyping] holds. *)
Definition setTypingIndicator (newId : string) (now : Z)
    (userId chatId : string) (typing : bool) (st : Store) : Store :=
  let key := String.append userId (String.append "-" chatId) in
  mkStore (messages st) (chats st)
    (if typing
     then JsMap.set key (mkTypingIndicator newId userId chatId (Some true)
                                           (Some now))
                    (typingIndicators st)
     else JsMap.delete key (typingIndicators st)).

(** The filter of [getTypingIndicators]; [now] is [Date.now()]. *)
Definition shown (now : Z) (chatId excludeUserId : string)
    (indicator : TypingIndicator) : bool :=
  bool_decide (ti_chatId indicator = chatId)
  && bool_decide (ti_userId indicator ≠ excludeUserId)
  && bool_decide (now - 5 * 1000 < date_value (ti_createdAt indicator))%Z.

Definition getTypingIndicators (now : Z) (chatId excludeUserId : string)
    (st : Store) : list TypingIndicator :=
  filter (λ i, shown now chatId excludeUserId i)
         (JsMap.values (typingIndicators st)).

(** The test of the loop of [cleanupOldTypingIndicators]. *)
Definition old (now : Z) (indicator : TypingIndicator) : bool :=
  bool_decide (date_value (ti_createdAt indicator) ≤ now - 5 * 1000)%Z.

Definition cleanupOldTypingIndicators (now : Z) (st : Store) : Store :=
  mkStore (messages st) (chats st)
    (JsMap.delete_where (old now) (typingIndicators st) (typingIndicators st)).

(** The test of the loop of [markMessagesAsSeen]. *)
Definition to_mark (chat : Chat) (userId : string) (message : Message) : bool :=
  bool_decide (toUserId message = userId)
  && ((bool_decide (fromUserId message = user1Id chat)
       && bool_decide (toUserId message = user2Id chat))
      || (bool_decide (fromUserId message = user2Id chat)
          && bool_decide (toUserId message = user1Id chat)))
  && negb (bool_decide (isSeen message = Some true)).

(** [message.isSeen = true; message.seenAt = new Date()]. *)
Definition mark (t : Z) (m : Message) : Message :=
  mkMessage (msg_id m) (fromUserId m) (toUserId m) (content m) (messageType m)
            (fileName m) (fileSize m) (mimeType m) (isWhisper m)
            (whisperExpiresAt m) (Some true) (Some t) (msg_createdAt m).

(** The loop of [markMessagesAsSeen]; every message it marks reads the
    clock anew: [clock n] is the [n]-th reading. *)
Fixpoint mark_seen (clock : nat → Z) (n : nat) (chat : Chat) (userId : string)
    (ms : list (string * Message)) : list (string * Message) :=
  match ms with
  | [] => []
  | (k, m) :: rest =>
      if to_mark chat userId m
      then (k, mark (clock n) m) :: mark_seen clock (S n) chat userId rest
      else (k, m) :: mark_seen clock n chat userId rest
  end.

Definition markMessagesAsSeen (clock : nat → Z) (chatId userId : string)
    (st : Store) : Store :=
  match JsMap.get chatId (chats st) with
  | None => st
  | Some chat =>
      mkStore (mark_seen clock 0 chat userId (messages st)) (chats st)
              (typingIndicators st)
  end.

(** Every typing indicator is stored under the key that
    [setTypingIndicator] builds from its user and chat. *)
Definition keyed (st : Store) : Prop :=
  Forall (λ e, e.1 = String.append (ti_userId e.2)
                       (String.append "-" (ti_chatId e.2)))
         (typingIndicators st).

Definition empty : Store := mkStore [] [] [].

End MemStorage.

(** The signalling state of [WebRTCService]: whether its socket exists
    and is open, and [currentCallId]. The media objects and the
    callbacks neither read nor write these two, and every assignment
    to [currentCallId] precedes the calls that may fail. *)
Module Client.

Record State := mkState {
  ws_ready : bool;
  currentCallId : option string
}.

(** [sendSignalingMessage]: the frames that go out. *)
Definition sendSignalingMessage (m : ClientMsg) (c : State) : list ClientMsg :=
  if ws_ready c then [m] else [].

Definition handleSignalingMessage (message : ServerMsg) (c : State) : State :=
  match message with
  | CallInitiated cid | IncomingCall cid _ _ _ _ =>
      mkState (ws_ready c) (Some cid)
  | CallRejected _ | CallEnded _ _ | CallFailed _ => mkState (ws_ready c) None
  | CallAnswered _ _ | IceCandidateFwd _ _ => c
  end.

Definition rejectCall (cid : string) (c : State) : list ClientMsg * State :=
  (sendSignalingMessage (CallReject cid) c, mkState (ws_ready c) None).

(** [if (this.currentCallId)]: an empty id is falsy. *)
Definition endCall (c : State) : list ClientMsg * State :=
  (match truthy (currentCallId c) with
   | Some cid => sendSignalingMessage (CallEnd cid) c
   | None => []
   end,
   mkState (ws_ready c) None).

(** [peerConnection.onicecandidate]; [candidate] is [event.candidate],
    [None] for [null]. *)
Definition onicecandidate (candidate : option Json) (c : State)
  : list ClientMsg :=
  match candidate, truthy (currentCallId c) with
  | Some cand, Some cid => sendSignalingMessage (IceCandidate cid cand) c
  | _, _ => []
  end.

(** The frames the relay put on socket [ws] between two worlds. *)
Definition inbox (ws : nat) (w w' : World) : list ServerMsg :=
  (filter (λ e, e.1 = ws) (drop (length (sent w)) (sent w'))).*2.

Definition handle_all (frames : list ServerMsg) (c : State) : State :=
  foldl (λ c m, handleSignalingMessage m c) c frames.

End Client.

(** Closing tactics for the side conditions of concrete scenarios. *)
Ltac solve_wf_calls :=
  unfold wf_calls; vm_compute; repeat constructor; by intros ?%elem_of_nil.

Ltac solve_no_ended :=
  unfold no_ended; vm_compute; repeat constructor; discriminate.

Ltac by_computation := vm_compute; reflexivity.

(** ** Examples *)

Example offer_delivered :
  let w := step (Message 1 "0.k3j2x9ab7q" (CallOffer "bob" JNull video "Alice"))
                two_users in
  sent w = [(1, CallInitiated "9ab7q");
            (2, IncomingCall "9ab7q" (Some "alice") "Alice" video JNull)]
  ∧ Map_get "9ab7q" (activeCalls w)
    = Some (mkCall "9ab7q" (Some "alice") "bob" video ringing).
Proof. vm_compute. done. Qed.

(** ** Lemmas on the [Map] operations *)

Lemma Map_get_set_eq k v m : Map_get k (Map_set k v m) = Some v.
Proof.
  induction m as [|[k' v'] m IH]; simpl.
  - by rewrite decide_True.
  - destruct (decide (k' = k)) as [->|Hne]; simpl.
    + by rewrite decide_True.
    + by rewrite decide_False.
Qed.

Lemma Map_get_set_ne k k' v m :
  k ≠ k' → Map_get k' (Map_set k v m) = Map_get k' m.
Proof.
  intros Hne. induction m as [|[k0 v0] m IH]; simpl.
  - by rewrite decide_False.
  - destruct (decide (k0 = k)) as [->|Hk]; simpl.
    + by rewrite !decide_False.
    + by rewrite IH.
Qed.

Lemma Map_get_delete_eq k m : Map_get k (Map_delete k m) = None.
Proof.
  unfold Map_delete. induction m as [|[k' v'] m IH]; [done|].
  rewrite filter_cons. simpl. destruct (decide (k' ≠ k)) as [Hne|_]; [|done].
  simpl. by rewrite decide_False.
Qed.

Lemma Map_get_delete_ne k k' m :
  k ≠ k' → Map_get k' (Map_delete k m) = Map_get k' m.
Proof.
  intros Hne. unfold Map_delete. induction m as [|[k0 v0] m IH]; [done|].
  rewrite filter_cons. simpl. destruct (decide (k0 ≠ k)) as [Hk|Hk]; simpl.
  - by rewrite IH.
  - apply dec_stable in Hk. subst k0. by rewrite decide_False.
Qed.

Lemma Map_get_None k m : Map_get k m = None ↔ k ∉ keys m.
Proof.
  unfold keys. induction m as [|[k' v'] m IH]; simpl.
  - split; [intros _; apply not_elem_of_nil | done].
  - rewrite not_elem_of_cons. destruct (decide (k' = k)) as [->|Hne].
    + split; [done | by intros [? _]].
    + rewrite IH. split; [intros ?; by split | by intros [_ ?]].
Qed.

Lemma Map_get_Some_elem k c m : Map_get k m = Some c → (k, c) ∈ m.
Proof.
  induction m as [|[k' v'] m IH]; simpl; [done|].
  destruct (decide (k' = k)) as [->|Hne].
  - intros [= ->]. apply list_elem_of_here.
  - intros H. apply list_elem_of_further. by apply IH.
Qed.

Lemma Map_get_elem k c m : NoDup (keys m) → (k, c) ∈ m → Map_get k m = Some c.
Proof.
  unfold keys. induction m as [|[k' v'] m IH]; simpl.
  - intros _ H. by apply elem_of_nil in H.
  - rewrite NoDup_cons. intros [Hk Hm] [Heq|Hin]%elem_of_cons.
    + injection Heq as -> ->. by rewrite decide_True.
    + destruct (decide (k' = k)) as [->|Hne]; [|by apply IH].
      exfalso. apply Hk. apply list_elem_of_fmap. by exists (k, c).
Qed.

Lemma Map_delete_absent k m : Map_get k m = None → Map_delete k m = m.
Proof.
  unfold Map_delete. induction m as [|[k' v'] m IH]; simpl; [done|].
  destruct (decide (k' = k)) as [->|Hne]; [done|].
  intros H. rewrite filter_cons. simpl. rewrite decide_True; [|done].
  by rewrite IH.
Qed.

Lemma Map_set_absent k v m : Map_get k m = None → Map_set k v m = m ++ [(k, v)].
Proof.
  induction m as [|[k' v'] m IH]; simpl; [done|].
  destruct (decide (k' = k)) as [->|Hne]; [done|].
  intros H. by rewrite IH.
Qed.

Lemma keys_Map_set_present k v m :
  is_Some (Map_get k m) → keys (Map_set k v m) = keys m.
Proof.
  unfold keys. induction m as [|[k' v'] m IH]; simpl.
  - by intros [? ?].
  - destruct (decide (k' = k)) as [->|Hne]; intros H; rewrite !fmap_cons.
    + done.
    + simpl. f_equal. by apply IH.
Qed.

Lemma NoDup_keys_Map_set k v m : NoDup (keys m) → NoDup (keys (Map_set k v m)).
Proof.
  intros Hm. destruct (Map_get k m) as [c|] eqn:Hg.
  - by rewrite keys_Map_set_present.
  - rewrite Map_set_absent; [|done]. unfold keys in *. rewrite fmap_app. simpl.
    apply NoDup_app. split; [done|]. split; [|apply NoDup_singleton].
    intros x Hx ->%list_elem_of_singleton. by apply Map_get_None in Hg.
Qed.

Lemma NoDup_keys_Map_delete k m : NoDup (keys m) → NoDup (keys (Map_delete k m)).
Proof.
  unfold keys, Map_delete. induction m as [|[k' v'] m IH]; simpl; [done|].
  rewrite NoDup_cons. intros [Hk Hm]. rewrite filter_cons. simpl.
  destruct (decide (k' ≠ k)); [|by apply IH].
  simpl. apply NoDup_cons. split; [|by apply IH].
  intros Hin. apply Hk. apply list_elem_of_fmap in Hin as [[k0 c0] [-> Hin]].
  apply list_elem_of_filter in Hin as [_ Hin]. apply list_elem_of_fmap.
  by exists (k0, c0).
Qed.

Lemma Map_delete_set k v m : Map_delete k (Map_set k v m) = Map_delete k m.
Proof.
  unfold Map_delete. induction m as [|[k' v'] m IH]; simpl.
  - rewrite filter_cons. simpl. by rewrite decide_False; [|naive_solver].
  - destruct (decide (k' = k)) as [->|Hne].
    + rewrite !filter_cons. simpl. by rewrite !decide_False; [| naive_solver..].
    + rewrite !filter_cons. simpl. rewrite !decide_True; [|done..]. by rewrite IH.
Qed.

(** ** Frame lemmas for the send primitives *)

Lemma send_if_open_sockets t m w : sockets (send_if_open t m w) = sockets w.
Proof. unfold send_if_open. by repeat case_match. Qed.

Lemma send_if_open_connections t m w :
  connections (send_if_open t m w) = connections w.
Proof. unfold send_if_open. by repeat case_match. Qed.

Lemma send_if_open_calls t m w :
  activeCalls (send_if_open t m w) = activeCalls w.
Proof. unfold send_if_open. by repeat case_match. Qed.

Lemma send_if_open_sent t m w :
  sent (send_if_open t m w) = sent w ++ delivery w t m.
Proof.
  unfold send_if_open, delivery. repeat case_match; simpl; try done;
    by rewrite app_nil_r.
Qed.

Lemma ws_send_sockets k m w : sockets (ws_send k m w) = sockets w.
Proof. unfold ws_send. by case_match. Qed.

Lemma ws_send_connections k m w : connections (ws_send k m w) = connections w.
Proof. unfold ws_send. by case_match. Qed.

Lemma ws_send_calls k m w : activeCalls (ws_send k m w) = activeCalls w.
Proof. unfold ws_send. by case_match. Qed.

Lemma ws_send_sent k m w :
  sent (ws_send k m w) = sent w ++ delivery w (Some k) m.
Proof.
  unfold ws_send, delivery. case_match; simpl; [done|]. by rewrite app_nil_r.
Qed.

Lemma ws_open_ext w w' k : sockets w' = sockets w → ws_open w' k = ws_open w k.
Proof. unfold ws_open. by intros ->. Qed.

Lemma delivery_ext w w' t m :
  sockets w' = sockets w → delivery w' t m = delivery w t m.
Proof.
  intros H. unfold delivery. destruct t; [|done]. by rewrite (ws_open_ext w w').
Qed.

Lemma world_eq w w' :
  sockets w = sockets w' → connections w = connections w' →
  activeCalls w = activeCalls w' → sent w = sent w' → w = w'.
Proof. destruct w, w'. simpl. by intros -> -> -> ->. Qed.

(** ** The [call-offer] case *)

Lemma on_call_offer_calls ws s r recv offer ct name w :
  activeCalls (on_call_offer ws s r recv offer ct name w)
  = Map_set (substring_from 7 r)
      (mkCall (substring_from 7 r) (userId s) recv ct ringing) (activeCalls w).
Proof.
  unfold on_call_offer. repeat case_match; simpl; by rewrite ?ws_send_calls.
Qed.

Lemma on_call_offer_connections ws s r recv offer ct name w :
  connections (on_call_offer ws s r recv offer ct name w) = connections w.
Proof.
  unfold on_call_offer. repeat case_match; simpl;
    by rewrite ?ws_send_connections.
Qed.

Lemma on_call_offer_sockets ws s r recv offer ct name w :
  sockets (on_call_offer ws s r recv offer ct name w) = sockets w.
Proof.
  unfold on_call_offer. repeat case_match; simpl; by rewrite ?ws_send_sockets.
Qed.

Lemma on_call_offer_sent_unreachable ws s r recv offer ct name w :
  sockets w !! ws = Some s → readyState s = OPEN →
  connections w !! recv = None →
  sent (on_call_offer ws s r recv offer ct name w)
  = sent w ++ [(ws, CallInitiated (substring_from 7 r));
               (ws, CallFailed "User not available")].
Proof.
  intros Hs Hopen Hrecv. unfold on_call_offer.
  rewrite ws_send_connections. simpl. rewrite Hrecv.
  rewrite !ws_send_sent. unfold delivery, ws_open.
  rewrite !ws_send_sockets. simpl.
  rewrite Hs, bool_decide_eq_true_2; [|done]. by rewrite <- app_assoc.
Qed.

(** C1, as the code has it: a call-offer whose receiver is not in
    [connections] is answered, on the caller's open socket, by
    call-initiated followed by call-failed with reason
    "User not available"; the registry and the sockets are untouched. *)
Theorem call_offer_unreachable_receiver w ws s r recv offer ct name :
  sockets w !! ws = Some s → readyState s = OPEN →
  connections w !! recv = None →
  let w' := on_message ws r (CallOffer recv offer ct name) w in
  sent w' = sent w ++ [(ws, CallInitiated (substring_from 7 r));
                       (ws, CallFailed "User not available")]
  ∧ connections w' = connections w ∧ sockets w' = sockets w.
Proof.
  intros Hs Hopen Hrecv. simpl. unfold on_message. rewrite Hs.
  split; [by apply on_call_offer_sent_unreachable|].
  split; [apply on_call_offer_connections | apply on_call_offer_sockets].
Qed.

Lemma call_offer_unreachable_receiver_witness :
  let w' := on_message 1 "0.k3j2x9ab7q" (CallOffer "ghost" JNull video "Alice")
                       two_users in
  sent w' = sent two_users ++ [(1, CallInitiated "9ab7q");
                               (1, CallFailed "User not available")]
  ∧ connections w' = connections two_users ∧ sockets w' = sockets two_users.
Proof.
  apply (call_offer_unreachable_receiver two_users 1
           (mkSocket (Some "alice") OPEN) "0.k3j2x9ab7q" "ghost");
    vm_compute; reflexivity.
Defined.

(** C1 as stated fails: alice offers a call to "ghost", who never
    registered; the session created for the offer is still stored, in
    state ringing, when the handler is done, and the reason sent is
    "User not available". *)
Lemma call_offer_unreachable_session_persists :
  let w' := on_message 1 "0.k3j2x9ab7q" (CallOffer "ghost" JNull video "Alice")
                       two_users in
  connections two_users !! "ghost" = None
  ∧ Map_get "9ab7q" (activeCalls w')
    = Some (mkCall "9ab7q" (Some "alice") "ghost" video ringing)
  ∧ sent w' = [(1, CallInitiated "9ab7q");
               (1, CallFailed "User not available")]
  ∧ CallFailed "User not available" ≠ CallFailed "user not available".
Proof. vm_compute. repeat split; done. Qed.

(** ** The [close] handler and the registry *)

Lemma with_calls_sockets m w : sockets (with_calls m w) = sockets w.
Proof. done. Qed.

Lemma close_loop_sockets u es : ∀ w, sockets (close_loop u es w) = sockets w.
Proof.
  induction es as [|[cid c] es IH]; intros w; simpl; [done|].
  case_match; rewrite IH; [|done]. simpl. apply send_if_open_sockets.
Qed.

Lemma close_loop_connections u es :
  ∀ w, connections (close_loop u es w) = connections w.
Proof.
  induction es as [|[cid c] es IH]; intros w; simpl; [done|].
  case_match; rewrite IH; [|done]. simpl. apply send_if_open_connections.
Qed.

Lemma truthy_Some u : u ≠ EmptyString → truthy (Some u) = Some u.
Proof. intros H. unfold truthy. by rewrite decide_False. Qed.

(** C2, as the code has it: the close handler of a connection whose
    [userId] is a non-empty id deletes the registry entry of that id
    whichever connection is stored for it; no other entry changes. *)
Theorem close_removes_registration w ws s u :
  sockets w !! ws = Some s → userId s = Some u → u ≠ EmptyString →
  connections (on_close ws w) = delete u (connections w).
Proof.
  intros Hs Hu Hne. unfold on_close. rewrite Hs, Hu, truthy_Some; [|done].
  by rewrite close_loop_connections.
Qed.

Lemma close_removes_registration_witness :
  connections (on_close 1 two_users) = delete "alice" (connections two_users).
Proof.
  apply (close_removes_registration two_users 1 (mkSocket (Some "alice") OPEN));
    [vm_compute; reflexivity | reflexivity | discriminate].
Defined.

(** C2 as stated fails: alice registers on socket 1 and again on
    socket 3, which replaces the entry; when the stale socket 1 closes,
    the entry that holds socket 3 is deleted. *)
Lemma stale_close_evicts_newer_registration :
  let w := run [Connection 1; Message 1 no_draw (Register "alice");
                Connection 3; Message 3 no_draw (Register "alice")] init in
  connections w !! "alice" = Some 3
  ∧ connections (step (Close 1) w) !! "alice" = None.
Proof. vm_compute. done. Qed.

(** ** The [call-answer] case *)

Lemma on_call_answer_absent cid answer w :
  Map_get cid (activeCalls w) = None → on_call_answer cid answer w = w.
Proof. intros H. unfold on_call_answer. by rewrite H. Qed.

Lemma on_call_answer_present cid answer w c :
  Map_get cid (activeCalls w) = Some c →
  on_call_answer cid answer w
  = mkWorld (sockets w) (connections w)
      (Map_set cid (set_status active c) (activeCalls w))
      (sent w ++ delivery w (connections_get w (callerId c))
                   (CallAnswered cid answer)).
Proof.
  intros H. unfold on_call_answer. rewrite H.
  apply world_eq; simpl.
  - by rewrite send_if_open_sockets.
  - by rewrite send_if_open_connections.
  - by rewrite send_if_open_calls.
  - rewrite send_if_open_sent. simpl. f_equal.
Qed.

(** C3, as the code has it: a call-answer frame succeeds exactly when a
    session with that call id is stored, whatever its state and whoever
    sends the frame. The session's status is then set to active, no
    other session changes, and call-answered goes to the caller's
    registered socket if that socket is open. When no session with that
    id is stored, nothing changes and nothing is sent. *)
Theorem call_answer_needs_only_a_stored_session w ws s r cid answer :
  sockets w !! ws = Some s →
  let w' := on_message ws r (CallAnswer cid answer) w in
  match Map_get cid (activeCalls w) with
  | Some c =>
      Map_get cid (activeCalls w') = Some (set_status active c)
      ∧ (∀ k, k ≠ cid → Map_get k (activeCalls w') = Map_get k (activeCalls w))
      ∧ sent w' = sent w ++ delivery w (connections_get w (callerId c))
                              (CallAnswered cid answer)
      ∧ connections w' = connections w ∧ sockets w' = sockets w
  | None => w' = w
  end.
Proof.
  intros Hs. simpl. unfold on_message. rewrite Hs.
  destruct (Map_get cid (activeCalls w)) as [c|] eqn:Hget.
  - rewrite (on_call_answer_present _ _ _ c Hget). simpl.
    split; [apply Map_get_set_eq|]. split; [|done].
    intros k Hk. by apply Map_get_set_ne.
  - by apply on_call_answer_absent.
Qed.

Lemma call_answer_needs_only_a_stored_session_witness :
  let w' := on_message 2 no_draw (CallAnswer "9ab7q" (JStr "sdp")) ringing_call in
  Map_get "9ab7q" (activeCalls w')
  = Some (mkCall "9ab7q" (Some "alice") "bob" video active)
  ∧ sent w' = sent ringing_call ++ [(1, CallAnswered "9ab7q" (JStr "sdp"))].
Proof.
  pose proof (call_answer_needs_only_a_stored_session ringing_call 2
                (mkSocket (Some "bob") OPEN) no_draw "9ab7q" (JStr "sdp")
                ltac:(vm_compute; reflexivity)) as H.
  change (Map_get "9ab7q" (activeCalls ringing_call))
    with (Some (mkCall "9ab7q" (Some "alice") "bob" video ringing)) in H.
  destruct H as (H1 & _ & H3 & _). split; [exact H1 | exact H3].
Defined.

(** C3 as stated fails on both conditions it adds: mallory, who is not
    the receiver, answers the ringing call between alice and bob, and
    bob answers a call that is already active; each time the session is
    set to active and call-answered goes to alice. *)
Lemma call_answer_by_third_party_or_twice :
  let w := run [Connection 3; Message 3 no_draw (Register "mallory")] ringing_call in
  let w1 := step (Message 3 no_draw (CallAnswer "9ab7q" (JStr "evil"))) w in
  let w2 := step (Message 2 no_draw (CallAnswer "9ab7q" (JStr "again"))) active_call in
  (sockets w !! 3 = Some (mkSocket (Some "mallory") OPEN)
   ∧ Map_get "9ab7q" (activeCalls w)
     = Some (mkCall "9ab7q" (Some "alice") "bob" video ringing)
   ∧ Map_get "9ab7q" (activeCalls w1)
     = Some (mkCall "9ab7q" (Some "alice") "bob" video active)
   ∧ sent w1 = sent w ++ [(1, CallAnswered "9ab7q" (JStr "evil"))])
  ∧ (observed "9ab7q" active_call = active
     ∧ sent w2 = sent active_call ++ [(1, CallAnswered "9ab7q" (JStr "again"))]).
Proof. vm_compute. repeat split; done. Qed.

(** ** The generated call id *)

(** C8, as the code has it: the call id is the tail, from index 7, of
    the base-36 rendering of the random draw, and the store is not
    consulted. The new session is stored under that id and sessions
    under other ids are untouched; when the id is not yet stored the
    session is appended, and when it is, it replaces the session stored
    under it and the key set stays as it was. *)
Theorem call_offer_id_is_the_draw w ws s r recv offer ct name :
  sockets w !! ws = Some s →
  let cid := substring_from 7 r in
  let c := mkCall cid (userId s) recv ct ringing in
  let w' := on_message ws r (CallOffer recv offer ct name) w in
  Map_get cid (activeCalls w') = Some c
  ∧ (∀ k, k ≠ cid → Map_get k (activeCalls w') = Map_get k (activeCalls w))
  ∧ (Map_get cid (activeCalls w) = None →
     activeCalls w' = activeCalls w ++ [(cid, c)])
  ∧ (is_Some (Map_get cid (activeCalls w)) →
     keys (activeCalls w') = keys (activeCalls w)).
Proof.
  intros Hs. simpl. unfold on_message. rewrite Hs, on_call_offer_calls.
  split; [apply Map_get_set_eq|].
  split; [intros k Hk; by apply Map_get_set_ne|].
  split; [apply Map_set_absent | apply keys_Map_set_present].
Qed.

Lemma call_offer_id_is_the_draw_witness :
  let w' := on_message 1 "0.k3j2x9ab7q" (CallOffer "bob" JNull video "Alice")
                       two_users in
  Map_get "9ab7q" (activeCalls w')
  = Some (mkCall "9ab7q" (Some "alice") "bob" video ringing)
  ∧ activeCalls w'
    = activeCalls two_users
      ++ [("9ab7q", mkCall "9ab7q" (Some "alice") "bob" video ringing)].
Proof.
  destruct (call_offer_id_is_the_draw two_users 1
              (mkSocket (Some "alice") OPEN) "0.k3j2x9ab7q" "bob" JNull video
              "Alice" ltac:(vm_compute; reflexivity)) as (H1 & _ & H3 & _).
  split; [exact H1 | apply H3; vm_compute; reflexivity].
Defined.

(** C8 as stated fails: while the call "9ab7q" from alice to bob is
    ringing, bob offers a call and the draw has the same tail; the
    generated id equals the id of a stored session, which is replaced. *)
Lemma call_offer_id_collides :
  let w' := step (Message 2 "0.zzzzz9ab7q" (CallOffer "alice" JNull voice "Bob"))
                 ringing_call in
  Map_get "9ab7q" (activeCalls ringing_call)
  = Some (mkCall "9ab7q" (Some "alice") "bob" video ringing)
  ∧ substring_from 7 "0.zzzzz9ab7q" = "9ab7q"
  ∧ activeCalls w' = [("9ab7q", mkCall "9ab7q" (Some "bob") "alice" voice ringing)].
Proof. vm_compute. done. Qed.

(** ** The [call-reject] / [call-end] and [ice-candidate] cases *)

Lemma on_call_end_absent s reject cid w :
  Map_get cid (activeCalls w) = None → on_call_end s reject cid w = w.
Proof. intros H. unfold on_call_end. by rewrite H. Qed.

Lemma on_call_end_present s reject cid w c :
  Map_get cid (activeCalls w) = Some c →
  on_call_end s reject cid w
  = mkWorld (sockets w) (connections w) (Map_delete cid (activeCalls w))
      (sent w ++ delivery w (connections_get w (otherUserId c (userId s)))
                   (if reject then CallRejected cid else CallEnded cid None)).
Proof.
  intros H. unfold on_call_end. rewrite H.
  apply world_eq; cbn [with_calls sockets connections activeCalls sent].
  - by rewrite send_if_open_sockets.
  - by rewrite send_if_open_connections.
  - rewrite send_if_open_calls. cbn [with_calls activeCalls].
    apply Map_delete_set.
  - by rewrite send_if_open_sent.
Qed.

Lemma on_call_end_calls s reject cid w :
  activeCalls (on_call_end s reject cid w) = Map_delete cid (activeCalls w).
Proof.
  destruct (Map_get cid (activeCalls w)) as [c|] eqn:H.
  - by rewrite (on_call_end_present _ _ _ _ c H).
  - by rewrite on_call_end_absent, Map_delete_absent.
Qed.

Lemma on_ice_candidate_absent s cid candidate w :
  Map_get cid (activeCalls w) = None → on_ice_candidate s cid candidate w = w.
Proof. intros H. unfold on_ice_candidate. by rewrite H. Qed.

Lemma on_ice_candidate_present s cid candidate w c :
  Map_get cid (activeCalls w) = Some c →
  on_ice_candidate s cid candidate w
  = mkWorld (sockets w) (connections w) (activeCalls w)
      (sent w ++ delivery w (connections_get w (otherUserId c (userId s)))
                   (IceCandidateFwd cid candidate)).
Proof.
  intros H. unfold on_ice_candidate. rewrite H.
  apply world_eq; simpl.
  - by rewrite send_if_open_sockets.
  - by rewrite send_if_open_connections.
  - by rewrite send_if_open_calls.
  - by rewrite send_if_open_sent.
Qed.

(** ** The loop of the [close] handler *)

Lemma close_frames_ext u w w' e :
  sockets w' = sockets w → connections w' = connections w →
  close_frames u w' e = close_frames u w e.
Proof.
  intros Hs Hc. unfold close_frames. case_match; [|done].
  rewrite (delivery_ext w w'); [|done].
  f_equal. unfold connections_get. by rewrite Hc.
Qed.

Lemma close_loop_sent u es :
  ∀ w, sent (close_loop u es w) = sent w ++ flat_map (close_frames u w) es.
Proof.
  induction es as [|[cid c] es IH]; intros w; simpl.
  - by rewrite app_nil_r.
  - unfold close_frames at 1. simpl. destruct (involves u c) eqn:Hinv.
    + rewrite IH. simpl. rewrite send_if_open_sent, <- app_assoc.
      do 2 f_equal. apply flat_map_ext. intros e.
      apply close_frames_ext; simpl.
      * apply send_if_open_sockets.
      * apply send_if_open_connections.
    + by rewrite IH.
Qed.

Lemma filter_iff_in {A} (P Q : A → Prop) `{!∀ x, Decision (P x)}
    `{!∀ x, Decision (Q x)} (l : list A) :
  (∀ x, x ∈ l → P x ↔ Q x) → filter P l = filter Q l.
Proof.
  induction l as [|a l IH]; intros Hl; [done|].
  rewrite !filter_cons.
  assert (filter P l = filter Q l) as ->.
  { apply IH. intros x Hx. apply Hl. by apply list_elem_of_further. }
  apply decide_ext, Hl, list_elem_of_here.
Qed.

Lemma filter_all {A} (P : A → Prop) `{!∀ x, Decision (P x)} (l : list A) :
  (∀ x, x ∈ l → P x) → filter P l = l.
Proof.
  induction l as [|a l IH]; intros Hl; [done|].
  rewrite filter_cons_True; [|apply Hl, list_elem_of_here].
  f_equal. apply IH. intros x Hx. by apply Hl, list_elem_of_further.
Qed.

Lemma close_loop_calls u es :
  ∀ w, activeCalls (close_loop u es w)
       = filter (λ e, e.1 ∉ keys (filter (λ e', involves u e'.2) es))
                (activeCalls w).
Proof.
  induction es as [|[cid c] es IH]; intros w; simpl.
  - symmetry. apply filter_all. intros x _. apply not_elem_of_nil.
  - rewrite filter_cons. simpl. destruct (involves u c) eqn:Hinv.
    + rewrite decide_True; [|done]. rewrite IH. simpl.
      rewrite send_if_open_calls. unfold Map_delete.
      rewrite list_filter_filter. apply list_filter_iff.
      intros x. rewrite not_elem_of_cons. tauto.
    + rewrite decide_False; [apply IH|]. simpl. by intros ?.
Qed.



(** ** Invariants of the store *)

Lemma Forall_Map_set (P : string * Call → Prop) k v m :
  Forall P m → P (k, v) → Forall P (Map_set k v m).
Proof.
  intros Hm Hv. induction Hm as [|[k' v'] m Hx Hm IH]; simpl.
  - by apply Forall_cons.
  - destruct (decide (k' = k)); apply Forall_cons; by split.
Qed.

Lemma Forall_Map_delete (P : string * Call → Prop) k m :
  Forall P m → Forall P (Map_delete k m).
Proof.
  rewrite !Forall_forall. intros Hm x Hx.
  apply list_elem_of_filter in Hx as [_ Hx]. by apply Hm.
Qed.

Lemma close_loop_Forall (P : string * Call → Prop) u es w :
  Forall P (activeCalls w) → Forall P (activeCalls (close_loop u es w)).
Proof.
  rewrite close_loop_calls, !Forall_forall. intros Hm x Hx.
  apply list_elem_of_filter in Hx as [_ Hx]. by apply Hm.
Qed.

Lemma on_close_Forall (P : string * Call → Prop) ws w :
  Forall P (activeCalls w) → Forall P (activeCalls (on_close ws w)).
Proof.
  intros Hw. unfold on_close. repeat case_match; try done.
  by apply close_loop_Forall.
Qed.

(** A property of the stored sessions that answering keeps and that
    every newly offered session has is kept by every step. *)
Lemma step_calls_Forall (P : Call → Prop) w e :
  (∀ c, P c → P (set_status active c)) →
  (∀ ws r recv offer ct name s,
     e = Message ws r (CallOffer recv offer ct name) →
     sockets w !! ws = Some s →
     P (mkCall (substring_from 7 r) (userId s) recv ct ringing)) →
  Forall (λ x, P x.2) (activeCalls w) →
  Forall (λ x, P x.2) (activeCalls (step e w)).
Proof.
  intros Hact Hnew Hw. destruct e as [ws|ws r m|ws]; simpl.
  - unfold on_connection. by case_match.
  - unfold on_message. destruct (sockets w !! ws) as [s|] eqn:Hs; [|done].
    destruct m as [u|recv offer ct name|cid answer|cid|cid|cid cand|]; try done.
    + rewrite on_call_offer_calls. apply Forall_Map_set; [done|].
      simpl. by eapply Hnew.
    + destruct (Map_get cid (activeCalls w)) as [c|] eqn:Hget.
      * rewrite (on_call_answer_present _ _ _ c Hget). simpl.
        apply Forall_Map_set; [done|]. simpl. apply Hact.
        apply Map_get_Some_elem in Hget.
        by apply (proj1 (Forall_forall _ _) Hw (cid, c)).
      * by rewrite on_call_answer_absent.
    + rewrite on_call_end_calls. by apply Forall_Map_delete.
    + rewrite on_call_end_calls. by apply Forall_Map_delete.
    + destruct (Map_get cid (activeCalls w)) as [c|] eqn:Hget.
      * by rewrite (on_ice_candidate_present _ _ _ _ c Hget).
      * by rewrite on_ice_candidate_absent.
  - by apply on_close_Forall.
Qed.

Lemma no_ended_step w e : no_ended w → no_ended (step e w).
Proof.
  unfold no_ended. intros Hw.
  apply (step_calls_Forall (λ c, status c ≠ ended)); done.
Qed.

Lemma wf_calls_step w e : wf_calls w → wf_calls (step e w).
Proof.
  unfold wf_calls. intros Hw. destruct e as [ws|ws r m|ws]; simpl.
  - unfold on_connection. by case_match.
  - unfold on_message. destruct (sockets w !! ws) as [s|] eqn:Hs; [|done].
    destruct m as [u|recv offer ct name|cid answer|cid|cid|cid cand|]; try done.
    + rewrite on_call_offer_calls. by apply NoDup_keys_Map_set.
    + destruct (Map_get cid (activeCalls w)) as [c|] eqn:Hget.
      * rewrite (on_call_answer_present _ _ _ c Hget). simpl.
        by apply NoDup_keys_Map_set.
      * by rewrite on_call_answer_absent.
    + rewrite on_call_end_calls. by apply NoDup_keys_Map_delete.
    + rewrite on_call_end_calls. by apply NoDup_keys_Map_delete.
    + destruct (Map_get cid (activeCalls w)) as [c|] eqn:Hget.
      * by rewrite (on_ice_candidate_present _ _ _ _ c Hget).
      * by rewrite on_ice_candidate_absent.
  - unfold on_close. repeat case_match; try done.
    rewrite close_loop_calls. simpl. unfold keys.
    apply NoDup_fmap_fst.
    + intros k c1 c2 [_ H1]%list_elem_of_filter [_ H2]%list_elem_of_filter.
      apply (Map_get_elem _ _ _ Hw) in H1, H2. congruence.
    + apply NoDup_filter. eapply NoDup_fmap_1. exact Hw.
Qed.

Lemma run_invariant (I : World → Prop) :
  (∀ w e, I w → I (step e w)) → ∀ tr w, I w → I (run tr w).
Proof.
  intros Hstep tr. induction tr as [|e tr IH]; intros w Hw; simpl; [done|].
  by apply IH, Hstep.
Qed.

Lemma wf_calls_run tr w : wf_calls w → wf_calls (run tr w).
Proof. apply (run_invariant wf_calls). intros ? ?. apply wf_calls_step. Qed.

(** Every world the server reaches has a store with unique keys. *)
Lemma wf_calls_reachable tr : wf_calls (run tr init).
Proof. apply wf_calls_run. constructor. Qed.

(** C10: in every world the server reaches from its initial state, by
    any sequence of connections, handled frames and disconnects, every
    stored session is ringing or active; [no_ended] is moreover kept by
    each single step. *)
Theorem no_terminal_session_persists tr :
  (∀ k c, Map_get k (activeCalls (run tr init)) = Some c →
          status c = ringing ∨ status c = active)
  ∧ ∀ w e, no_ended w → no_ended (step e w).
Proof.
  split; [|apply no_ended_step].
  intros k c Hget.
  assert (no_ended (run tr init)) as Hinv.
  { apply (run_invariant no_ended); [apply no_ended_step|]. constructor. }
  apply Map_get_Some_elem in Hget.
  pose proof (proj1 (Forall_forall _ _) Hinv (k, c) Hget) as Hne. simpl in Hne.
  destruct (status c); [by left | by right | done].
Qed.

Lemma no_terminal_session_persists_witness :
  (status (mkCall "9ab7q" (Some "alice") "bob" video active) = ringing
   ∨ status (mkCall "9ab7q" (Some "alice") "bob" video active) = active)
  ∧ no_ended (step (Message 1 no_draw (CallEnd "9ab7q")) active_call).
Proof.
  split.
  - apply (proj1 (no_terminal_session_persists
                    [Connection 1; Message 1 no_draw (Register "alice");
                     Connection 2; Message 2 no_draw (Register "bob");
                     Message 1 "0.k3j2x9ab7q" (CallOffer "bob" JNull video "Alice");
                     Message 2 no_draw (CallAnswer "9ab7q" (JStr "sdp"))])
                 "9ab7q").
    vm_compute; reflexivity.
  - apply (proj2 (no_terminal_session_persists [])).
    solve_no_ended.
Defined.

(** C9 as stated fails: alice offers a call to herself and the stored
    session has alice as caller and as receiver. *)
Lemma call_offer_to_oneself :
  let w' := step (Message 1 "0.k3j2x9ab7q" (CallOffer "alice" JNull voice "Alice"))
                 two_users in
  Map_get "9ab7q" (activeCalls w')
  = Some (mkCall "9ab7q" (Some "alice") "alice" voice ringing).
Proof. vm_compute. done. Qed.

(** ** Forwarding of ICE candidates *)

Lemma delivery_reachable w p k m :
  connections w !! p = Some k → ws_open w k = true →
  delivery w (connections_get w (Some p)) m = [(k, m)].
Proof. intros Hp Hk. unfold delivery. simpl. by rewrite Hp, Hk. Qed.

Lemma otherUserId_caller c : otherUserId c (callerId c) = Some (receiverId c).
Proof. unfold otherUserId. by rewrite decide_True. Qed.

Lemma otherUserId_receiver c :
  callerId c ≠ Some (receiverId c) →
  otherUserId c (Some (receiverId c)) = callerId c.
Proof. intros H. unfold otherUserId. by rewrite decide_False. Qed.

(** ** Disconnect of a party *)









Lemma Map_get_filter (P : string * Call → Prop) `{!∀ x, Decision (P x)} k c m :
  NoDup (keys m) → Map_get k m = Some c →
  Map_get k (filter P m) = if decide (P (k, c)) then Some c else None.
Proof.
  unfold keys. induction m as [|[k' c'] m IH]; simpl; [done|].
  rewrite NoDup_cons. intros [Hk Hm]. rewrite filter_cons.
  destruct (decide (k' = k)) as [->|Hne].
  - intros [= ->]. destruct (decide (P (k, c))); simpl.
    + by rewrite decide_True.
    + apply Map_get_None. intros Hin. apply Hk.
      apply list_elem_of_fmap in Hin as [x [-> Hin]].
      apply list_elem_of_filter in Hin as [_ Hin].
      apply list_elem_of_fmap. by exists x.
  - intros Hget. destruct (decide (P (k', c'))); simpl.
    + rewrite decide_False; [|done]. by apply IH.
    + by apply IH.
Qed.

Lemma Map_get_filter_None (P : string * Call → Prop) `{!∀ x, Decision (P x)}
    k m :
  Map_get k m = None → Map_get k (filter P m) = None.
Proof.
  rewrite !Map_get_None. intros Hk Hin. apply Hk. unfold keys in *.
  apply list_elem_of_fmap in Hin as [x [-> Hin]].
  apply list_elem_of_filter in Hin as [_ Hin].
  apply list_elem_of_fmap. by exists x.
Qed.




(** ** Idempotence of termination *)


Lemma on_close_sent_calls ws w :
  ∃ u, (sent (on_close ws w) = sent w ∧ activeCalls (on_close ws w) = activeCalls w)
       ∨ (∃ w1, sockets w1 = sockets (on_close ws w)
                ∧ connections w1 = connections (on_close ws w)
                ∧ sent (on_close ws w)
                  = sent w ++ flat_map (close_frames u w1) (activeCalls w)
                ∧ activeCalls (on_close ws w)
                  = filter (λ e, e.1 ∉ keys (filter (λ e', involves u e'.2)
                                                   (activeCalls w)))
                           (activeCalls w)).
Proof.
  unfold on_close. destruct (sockets w !! ws) as [s|]; [|exists EmptyString; by left].
  destruct (truthy (userId s)) as [u|]; [|exists EmptyString; by left].
  exists u. right.
  exists (mkWorld (<[ws := mkSocket (userId s) CLOSED]> (sockets w))
                  (delete u (connections w)) (activeCalls w) (sent w)).
  split; [|split; [|split]].
  - by rewrite close_loop_sockets.
  - by rewrite close_loop_connections.
  - by rewrite close_loop_sent.
  - by rewrite close_loop_calls.
Qed.


(** A call-end or call-reject frame handled on a live connection leaves
    nothing stored under the id it names. *)
Lemma call_end_removes_session w ws s r reject cid :
  sockets w !! ws = Some s →
  Map_get cid (activeCalls
                 (step (Message ws r (if reject : bool then CallReject cid
                                      else CallEnd cid)) w)) = None.
Proof.
  intros Hs. simpl. unfold on_message. rewrite Hs.
  destruct reject; rewrite on_call_end_calls; apply Map_get_delete_eq.
Qed.


(** ** The life cycle of a call id *)

Lemma rank_le_ended st : (rank st ≤ rank ended)%nat.
Proof. destruct st; simpl; lia. Qed.

Lemma absent_step w cid e :
  Map_get cid (activeCalls w) = None → ¬ generates cid e →
  Map_get cid (activeCalls (step e w)) = None.
Proof.
  intros Habs Hgen. destruct e as [ws|ws r m|ws]; simpl in *.
  - unfold on_connection. by case_match.
  - unfold on_message. destruct (sockets w !! ws) as [s|]; [|done].
    destruct m as [u|recv offer ct name|k answer|k|k|k cand|]; try done.
    + rewrite on_call_offer_calls, Map_get_set_ne; done.
    + destruct (Map_get k (activeCalls w)) as [c|] eqn:Hget.
      * rewrite (on_call_answer_present _ _ _ c Hget). simpl.
        rewrite Map_get_set_ne; [done|]. congruence.
      * by rewrite on_call_answer_absent.
    + rewrite on_call_end_calls. by apply Map_get_filter_None.
    + rewrite on_call_end_calls. by apply Map_get_filter_None.
    + destruct (Map_get k (activeCalls w)) as [c|] eqn:Hget.
      * by rewrite (on_ice_candidate_present _ _ _ _ c Hget).
      * by rewrite on_ice_candidate_absent.
  - destruct (on_close_sent_calls ws w)
      as [u [[_ Hcalls]|(w1 & _ & _ & _ & Hcalls)]]; rewrite Hcalls; [done|].
    by apply Map_get_filter_None.
Qed.

(** A frame that names a call id under which nothing is stored. *)
Lemma stale_frame_dropped w cid e :
  Map_get cid (activeCalls w) = None → references cid e → step e w = w.
Proof.
  intros Habs Href. destruct e as [ws|ws r m|ws]; simpl in *; try done.
  unfold on_message. destruct (sockets w !! ws) as [s|]; [|done].
  destruct m; try done; subst.
  - by apply on_call_answer_absent.
  - by apply on_call_end_absent.
  - by apply on_call_end_absent.
  - by apply on_ice_candidate_absent.
Qed.

Lemma observed_step w cid e :
  wf_calls w → no_ended w → ¬ generates cid e →
  (rank (observed cid w) ≤ rank (observed cid (step e w)))%nat.
Proof.
  intros Hwf Hne Hgen. unfold observed at 1.
  destruct (Map_get cid (activeCalls w)) as [c|] eqn:Hc; cycle 1.
  { unfold observed. by rewrite absent_step. }
  assert (status c ≠ ended) as Hst.
  { apply Map_get_Some_elem in Hc.
    apply (proj1 (Forall_forall _ _) Hne (cid, c) Hc). }
  unfold observed. destruct e as [ws|ws r m|ws]; simpl in *.
  - unfold on_connection. destruct (sockets w !! ws); simpl; by rewrite Hc.
  - unfold on_message. destruct (sockets w !! ws) as [s|]; [|by rewrite Hc].
    destruct m as [u|recv offer ct name|k answer|k|k|k cand|];
      try (simpl; by rewrite Hc).
    + rewrite on_call_offer_calls, Map_get_set_ne; [|done]. by rewrite Hc.
    + destruct (Map_get k (activeCalls w)) as [c'|] eqn:Hget.
      * rewrite (on_call_answer_present _ _ _ c' Hget). simpl.
        destruct (decide (k = cid)) as [->|Hk].
        -- rewrite Map_get_set_eq. simpl. destruct (status c); simpl; try lia.
           done.
        -- rewrite Map_get_set_ne; [|done]. by rewrite Hc.
      * rewrite on_call_answer_absent; [|done]. by rewrite Hc.
    + rewrite on_call_end_calls. unfold Map_delete.
      rewrite (Map_get_filter _ cid c); [|done..].
      case_decide; [done | apply rank_le_ended].
    + rewrite on_call_end_calls. unfold Map_delete.
      rewrite (Map_get_filter _ cid c); [|done..].
      case_decide; [done | apply rank_le_ended].
    + destruct (Map_get k (activeCalls w)) as [c'|] eqn:Hget.
      * rewrite (on_ice_candidate_present _ _ _ _ c' Hget). simpl.
        by rewrite Hc.
      * rewrite on_ice_candidate_absent; [|done]. by rewrite Hc.
  - destruct (on_close_sent_calls ws w)
      as [u [[_ Hcalls]|(w1 & _ & _ & _ & Hcalls)]]; rewrite Hcalls.
    + by rewrite Hc.
    + rewrite (Map_get_filter _ cid c); [|done..].
      case_decide; [done | apply rank_le_ended].
Qed.

Lemma observed_states cid tr :
  ∀ w, wf_calls w → no_ended w → Forall (λ e, ¬ generates cid e) tr →
       ∀ w', w' ∈ states tr w →
             (rank (observed cid w) ≤ rank (observed cid w'))%nat.
Proof.
  induction tr as [|e tr IH]; intros w Hwf Hne Htr w' Hw'; simpl in Hw'.
  - apply list_elem_of_singleton in Hw' as ->. lia.
  - apply Forall_cons in Htr as [He Htr].
    apply elem_of_cons in Hw' as [->|Hw']; [lia|].
    etrans; [by apply (observed_step w cid e)|].
    apply IH; [by apply wf_calls_step | by apply no_ended_step | done..].
Qed.

Lemma absent_states cid tr :
  ∀ w, Map_get cid (activeCalls w) = None →
       Forall (λ e, ¬ generates cid e) tr →
       ∀ w', w' ∈ states tr w → Map_get cid (activeCalls w') = None.
Proof.
  induction tr as [|e tr IH]; intros w Habs Htr w' Hw'; simpl in Hw'.
  - by apply list_elem_of_singleton in Hw' as ->.
  - apply Forall_cons in Htr as [He Htr].
    apply elem_of_cons in Hw' as [->|Hw']; [done|].
    apply (IH (step e w)); [by apply absent_step | done..].
Qed.

(** C6, as the code has it: along any sequence of events in which no
    call-offer draws the id [cid] again, the state of call [cid] as
    stored between steps only moves forward along ringing, active,
    ended; once no session is stored under [cid] none is stored later,
    and every call-answer, call-reject, call-end or ice-candidate frame
    that names [cid] then leaves the world as it was. *)
Theorem call_lifecycle_without_id_reuse cid tr w :
  wf_calls w → no_ended w → Forall (λ e, ¬ generates cid e) tr →
  StronglySorted (λ a b, (rank a ≤ rank b)%nat) (observed cid <$> states tr w)
  ∧ (Map_get cid (activeCalls w) = None →
     ∀ w', w' ∈ states tr w →
           Map_get cid (activeCalls w') = None
           ∧ ∀ e, references cid e → step e w' = w').
Proof.
  intros Hwf Hne Htr. split.
  - revert w Hwf Hne Htr.
    induction tr as [|e tr IH]; intros w Hwf Hne Htr; cbn [states].
    + repeat constructor.
    + pose proof Htr as Htr'. apply Forall_cons in Htr' as [He Htr'].
      rewrite fmap_cons. constructor.
      * apply IH; [by apply wf_calls_step | by apply no_ended_step | done].
      * apply Forall_fmap, Forall_forall. intros w' Hw'. simpl.
        apply (observed_states cid (e :: tr) w); [done..|].
        simpl. by apply list_elem_of_further.
  - intros Habs w' Hw'.
    pose proof (absent_states cid tr w Habs Htr w' Hw') as Habs'.
    split; [done|]. intros e. by apply stale_frame_dropped.
Qed.

Lemma call_lifecycle_without_id_reuse_witness :
  StronglySorted (λ a b, (rank a ≤ rank b)%nat)
    (observed "9ab7q"
       <$> states [Message 2 no_draw (CallAnswer "9ab7q" (JStr "sdp"));
                   Message 1 no_draw (IceCandidate "9ab7q" (JStr "cand"));
                   Message 2 no_draw (CallEnd "9ab7q");
                   Message 1 no_draw (CallEnd "9ab7q");
                   Close 1] ringing_call).
Proof.
  apply (call_lifecycle_without_id_reuse "9ab7q").
  - solve_wf_calls.
  - solve_no_ended.
  - repeat constructor; simpl; by intros ?.
Defined.

(** C6 as stated fails when a call-offer draws an id again: the call
    "9ab7q" is active when bob's offer draws the same tail, and the
    session stored under that id is ringing afterwards; and after the
    call was ended and removed, the same draw stores a ringing session
    under its id again. *)
Lemma call_id_drawn_again :
  let offer := Message 2 "0.zzzzz9ab7q" (CallOffer "alice" JNull voice "Bob") in
  let ended_call := step (Message 1 no_draw (CallEnd "9ab7q")) active_call in
  (observed "9ab7q" active_call = active
   ∧ observed "9ab7q" (step offer active_call) = ringing)
  ∧ (Map_get "9ab7q" (activeCalls ended_call) = None
     ∧ observed "9ab7q" (step offer ended_call) = ringing).
Proof. vm_compute. done. Qed.

(** * Disconnect, termination, candidates and parties in full *)

(** ** The frames of the [close] handler *)






(** ** Terminating a call twice *)

Lemma delivery_unreachable w target m :
  (target = None ∨ ∃ k, target = Some k ∧ ws_open w k = false) →
  delivery w target m = [].
Proof. intros [->|(k & -> & Hk)]; simpl; [done|]. by rewrite Hk. Qed.







(** ** Forwarding of ICE candidates, in full *)

(** C7, as the code has it: handling an ice-candidate frame never
    changes the registry, the store or the sockets. If no session is
    stored under its call id the world is left as it was. Otherwise
    the other participant is the receiver when the sender is the
    caller and the caller for every other sender, and the only effect
    is the guarded send of one frame with the same call id and the
    same candidate: it is transmitted, on that socket, when the other
    participant's id is in the registry with an open socket, and when
    the id is not in the registry, or its socket is not open, the
    frame is dropped and the world is left as it was. *)
Theorem ice_candidate_forwarded_verbatim w ws s r cid candidate :
  sockets w !! ws = Some s →
  let w' := on_message ws r (IceCandidate cid candidate) w in
  connections w' = connections w ∧ activeCalls w' = activeCalls w
  ∧ sockets w' = sockets w
  ∧ match Map_get cid (activeCalls w) with
    | None => w' = w
    | Some c =>
        (∀ p k, otherUserId c (userId s) = Some p →
                connections w !! p = Some k → ws_open w k = true →
                sent w' = sent w ++ [(k, IceCandidateFwd cid candidate)])
        ∧ sent w' = sent w
                    ++ delivery w (connections_get w (otherUserId c (userId s)))
                         (IceCandidateFwd cid candidate)
        ∧ (connections_get w (otherUserId c (userId s)) = None → w' = w)
        ∧ (∀ k, connections_get w (otherUserId c (userId s)) = Some k →
                ws_open w k = false → w' = w)
        ∧ (userId s = callerId c →
           otherUserId c (userId s) = Some (receiverId c))
        ∧ (userId s = Some (receiverId c) →
           callerId c ≠ Some (receiverId c) →
           otherUserId c (userId s) = callerId c)
        ∧ (userId s ≠ callerId c → otherUserId c (userId s) = callerId c)
    end.
Proof.
  intros Hs. simpl. unfold on_message. rewrite Hs.
  destruct (Map_get cid (activeCalls w)) as [c|] eqn:Hget.
  - rewrite (on_ice_candidate_present _ _ _ _ c Hget). simpl.
    split; [done|]. split; [done|]. split; [done|].
    split; [|split; [done|split; [|split; [|split; [|split]]]]].
    + intros p k -> Hp Hk. by rewrite (delivery_reachable w p k).
    + intros Hnone. rewrite delivery_unreachable; [|by left].
      apply world_eq; simpl; try done. apply app_nil_r.
    + intros k Hk Hclosed. rewrite delivery_unreachable; [|right; eauto].
      apply world_eq; simpl; try done. apply app_nil_r.
    + intros ->. apply otherUserId_caller.
    + intros ->. apply otherUserId_receiver.
    + intros Hne. unfold otherUserId. rewrite decide_False; [done|]. congruence.
  - by rewrite on_ice_candidate_absent.
Qed.

Lemma ice_candidate_forwarded_verbatim_witness :
  let w' := on_message 1 no_draw (IceCandidate "9ab7q" (JStr "cand")) active_call in
  sent w' = sent active_call ++ [(2, IceCandidateFwd "9ab7q" (JStr "cand"))]
  ∧ activeCalls w' = activeCalls active_call.
Proof.
  pose proof (ice_candidate_forwarded_verbatim active_call 1
                (mkSocket (Some "alice") OPEN) no_draw "9ab7q" (JStr "cand")
                ltac:(vm_compute; reflexivity)) as H.
  change (Map_get "9ab7q" (activeCalls active_call))
    with (Some (mkCall "9ab7q" (Some "alice") "bob" video active)) in H.
  destruct H as (_ & H2 & _ & H4 & _). split; [|exact H2].
  apply (H4 "bob" 2); vm_compute; reflexivity.
Defined.

(** C7 as stated fails: bob is connected on sockets 2 and 3, both
    registered under his id; socket 2 closes, which deletes his
    registry entry although socket 3 stays open. Bob then calls alice
    from socket 3 and she answers. The session is active and bob, its
    other participant, is connected on an open socket, yet alice's
    candidate for that call is dropped: her frame changes nothing. *)
Lemma ice_candidate_dropped_for_connected_peer :
  let w := run [Connection 1; Message 1 no_draw (Register "alice");
                Connection 2; Message 2 no_draw (Register "bob");
                Connection 3; Message 3 no_draw (Register "bob");
                Close 2;
                Message 3 "0.k3j2x9ab7q" (CallOffer "alice" JNull video "Bob");
                Message 1 no_draw (CallAnswer "9ab7q" (JStr "sdp"))] init in
  sockets w !! 3 = Some (mkSocket (Some "bob") OPEN)
  ∧ sockets w !! 1 = Some (mkSocket (Some "alice") OPEN)
  ∧ Map_get "9ab7q" (activeCalls w)
    = Some (mkCall "9ab7q" (Some "bob") "alice" video active)
  ∧ connections w !! "bob" = None
  ∧ step (Message 1 no_draw (IceCandidate "9ab7q" (JStr "cand"))) w = w.
Proof. vm_compute. done. Qed.

(** ** The parties of a stored session, in full *)

Lemma Map_get_filter_key (P : string → Prop) `{!∀ k, Decision (P k)} k m :
  Map_get k (filter (λ e, P e.1) m) = if decide (P k) then Map_get k m else None.
Proof.
  induction m as [|[k' v] m IH]; simpl.
  - by destruct (decide (P k)).
  - rewrite filter_cons. simpl. destruct (decide (P k')) as [Hk'|Hk']; simpl.
    + destruct (decide (k' = k)) as [->|Hne]; [by rewrite decide_True|done].
    + rewrite IH. destruct (decide (P k)) as [Hk|Hk]; [|done].
      rewrite decide_False; [done|]. by intros ->.
Qed.

(** What a step that does not draw id [k] leaves under [k]. *)
Lemma stored_session_origin w e k c' :
  ¬ generates k e → Map_get k (activeCalls (step e w)) = Some c' →
  ∃ c, Map_get k (activeCalls w) = Some c
       ∧ (c' = c ∨ c' = set_status active c).
Proof.
  intros Hgen Hc'. destruct e as [ws|ws r m|ws]; simpl in *.
  - unfold on_connection in Hc'. destruct (sockets w !! ws); eauto.
  - unfold on_message in Hc'. destruct (sockets w !! ws) as [s|]; [|by eauto].
    destruct m as [u|recv offer ct name|cid answer|cid|cid|cid cand|];
      try (by eauto).
    + rewrite on_call_offer_calls, Map_get_set_ne in Hc'; eauto.
    + destruct (Map_get cid (activeCalls w)) as [c|] eqn:Hget.
      * rewrite (on_call_answer_present _ _ _ c Hget) in Hc'. simpl in Hc'.
        destruct (decide (cid = k)) as [->|Hne].
        -- rewrite Map_get_set_eq in Hc'. injection Hc' as <-. eauto.
        -- rewrite Map_get_set_ne in Hc'; eauto.
      * rewrite on_call_answer_absent in Hc'; eauto.
    + rewrite on_call_end_calls in Hc'.
      destruct (decide (cid = k)) as [->|Hne].
      * by rewrite Map_get_delete_eq in Hc'.
      * rewrite Map_get_delete_ne in Hc'; eauto.
    + rewrite on_call_end_calls in Hc'.
      destruct (decide (cid = k)) as [->|Hne].
      * by rewrite Map_get_delete_eq in Hc'.
      * rewrite Map_get_delete_ne in Hc'; eauto.
    + destruct (Map_get cid (activeCalls w)) as [c|] eqn:Hget.
      * rewrite (on_ice_candidate_present _ _ _ _ c Hget) in Hc'. eauto.
      * rewrite on_ice_candidate_absent in Hc'; eauto.
  - destruct (on_close_sent_calls ws w)
      as [u [[_ Hcalls]|(w1 & _ & _ & _ & Hcalls)]]; rewrite Hcalls in Hc';
      [by eauto|].
    pose proof (Map_get_filter_key
                  (λ x, x ∉ keys (filter (λ e', involves u e'.2) (activeCalls w)))
                  k (activeCalls w)) as Hf.
    cbv beta in Hf. rewrite Hf in Hc'.
    destruct (decide _); [eauto | done].
Qed.

(** C9, as the code has it: the relay never compares the two parties.
    The session an offer creates has the sender's registered id as
    caller and the named id as receiver. A step keeps "every stored
    session has a caller different from its receiver" unless it is a
    call-offer whose sender names its own id as receiver. And no other
    operation changes or adds a session's parties: a session stored
    under an id after a step that is not a call-offer drawing that id
    was stored under it before the step, the same in every field
    except that its status may have been set to active. *)
Theorem caller_differs_from_receiver_unless_self_offer w e :
  (∀ ws s r recv offer ct name,
     e = Message ws r (CallOffer recv offer ct name) →
     sockets w !! ws = Some s →
     Map_get (substring_from 7 r) (activeCalls (step e w))
     = Some (mkCall (substring_from 7 r) (userId s) recv ct ringing))
  ∧ (distinct_parties w → ¬ self_offer w e → distinct_parties (step e w))
  ∧ (∀ k c', ¬ generates k e →
       Map_get k (activeCalls (step e w)) = Some c' →
       ∃ c, Map_get k (activeCalls w) = Some c
            ∧ (c' = c ∨ c' = set_status active c)
            ∧ callerId c' = callerId c ∧ receiverId c' = receiverId c).
Proof.
  split; [|split].
  - intros ws s r recv offer ct name -> Hs. simpl. unfold on_message.
    rewrite Hs, on_call_offer_calls. apply Map_get_set_eq.
  - unfold distinct_parties. intros Hw Hself.
    apply (step_calls_Forall (λ c, callerId c ≠ Some (receiverId c)));
      [done| |done].
    intros ws r recv offer ct name s -> Hs. simpl. intros Heq.
    apply Hself. simpl. by exists s.
  - intros k c' Hgen Hc'.
    destruct (stored_session_origin w e k c' Hgen Hc') as (c & Hc & Hcc).
    exists c. split; [done|]. split; [done|]. by destruct Hcc as [->| ->].
Qed.

Lemma caller_differs_from_receiver_unless_self_offer_witness :
  Map_get "9ab7q" (activeCalls ringing_call)
  = Some (mkCall "9ab7q" (Some "alice") "bob" video ringing)
  ∧ distinct_parties ringing_call
  ∧ ∃ c, Map_get "9ab7q" (activeCalls ringing_call) = Some c
         ∧ callerId (mkCall "9ab7q" (Some "alice") "bob" video active)
           = callerId c
         ∧ receiverId (mkCall "9ab7q" (Some "alice") "bob" video active)
           = receiverId c.
Proof.
  destruct (caller_differs_from_receiver_unless_self_offer two_users
              (Message 1 "0.k3j2x9ab7q" (CallOffer "bob" JNull video "Alice")))
    as (Hnew & Hinv & _).
  destruct (caller_differs_from_receiver_unless_self_offer ringing_call
              (Message 2 no_draw (CallAnswer "9ab7q" (JStr "sdp"))))
    as (_ & _ & Hkeep).
  split; [|split].
  - apply (Hnew 1 (mkSocket (Some "alice") OPEN) "0.k3j2x9ab7q" "bob" JNull
             video "Alice"); [reflexivity | by_computation].
  - apply Hinv.
    + constructor.
    + simpl. intros (s & Hs & Hu). vm_compute in Hs.
      injection Hs as <-. discriminate Hu.
  - destruct (Hkeep "9ab7q" (mkCall "9ab7q" (Some "alice") "bob" video active))
      as (c & Hc & _ & H1 & H2); [by intros ? | by_computation |].
    by exists c.
Defined.

(** * Further properties of the relay *)

(** ** The [call-offer] case with a registered receiver *)

(** X1: a call-offer handled on an open connection whose receiver is
    registered with an open socket produces exactly two frames:
    call-initiated to the caller and incoming-call to the receiver's
    socket. The incoming-call carries the generated id, the caller id
    taken from the connection's own registration (not from the frame),
    and the caller name, call type and offer of the frame unchanged;
    no call-failed is sent and registry and sockets are untouched. *)
Theorem call_offer_reaches_registered_receiver
    w ws s r recv k offer ct name :
  sockets w !! ws = Some s → readyState s = OPEN →
  connections w !! recv = Some k → ws_open w k = true →
  let w' := on_message ws r (CallOffer recv offer ct name) w in
  sent w' = sent w ++ [(ws, CallInitiated (substring_from 7 r));
                       (k, IncomingCall (substring_from 7 r) (userId s)
                             name ct offer)]
  ∧ connections w' = connections w ∧ sockets w' = sockets w.
Proof.
  intros Hs Hopen Hrecv Hk. simpl. unfold on_message. rewrite Hs.
  split; [|split; [apply on_call_offer_connections
                  | apply on_call_offer_sockets]].
  unfold on_call_offer. rewrite ws_send_connections. simpl. rewrite Hrecv.
  rewrite (ws_open_ext w); [|by rewrite ws_send_sockets].
  rewrite Hk. simpl. rewrite ws_send_sent. unfold delivery, ws_open. simpl.
  rewrite Hs, bool_decide_eq_true_2; [|done]. by rewrite <- app_assoc.
Qed.

Lemma call_offer_reaches_registered_receiver_witness :
  sent ringing_call
  = sent two_users
    ++ [(1, CallInitiated "9ab7q");
        (2, IncomingCall "9ab7q" (Some "alice") "Alice" video JNull)].
Proof.
  apply (call_offer_reaches_registered_receiver two_users 1
           (mkSocket (Some "alice") OPEN) "0.k3j2x9ab7q" "bob" 2 JNull video
           "Alice"); by_computation.
Defined.

(** X2: a receiver whose registry entry points to a socket that is no
    longer open is treated like an unregistered one: the caller gets
    call-initiated and then call-failed, and nothing is sent on the
    stale socket. *)
Theorem call_offer_to_stale_registration w ws s r recv k offer ct name :
  sockets w !! ws = Some s → readyState s = OPEN →
  connections w !! recv = Some k → ws_open w k = false →
  sent (on_message ws r (CallOffer recv offer ct name) w)
  = sent w ++ [(ws, CallInitiated (substring_from 7 r));
               (ws, CallFailed "User not available")].
Proof.
  intros Hs Hopen Hrecv Hk. unfold on_message. rewrite Hs.
  unfold on_call_offer. rewrite ws_send_connections. simpl. rewrite Hrecv.
  rewrite (ws_open_ext w); [|by rewrite ws_send_sockets].
  rewrite Hk. rewrite !ws_send_sent. unfold delivery, ws_open.
  rewrite !ws_send_sockets. simpl.
  rewrite Hs, bool_decide_eq_true_2; [|done]. by rewrite <- app_assoc.
Qed.

Lemma call_offer_to_stale_registration_witness :
  let w := run [Message 1 no_draw (Register "al");
                Message 1 no_draw (Register "alice"); Close 1] two_users in
  sent (on_message 2 "0.k3j2x9ab7q" (CallOffer "al" JNull voice "Bob") w)
  = sent w ++ [(2, CallInitiated "9ab7q");
               (2, CallFailed "User not available")].
Proof.
  apply (call_offer_to_stale_registration _ 2 (mkSocket (Some "bob") OPEN)
           "0.k3j2x9ab7q" "al" 1); by_computation.
Defined.

(** ** Registration *)

Lemma on_message_register w ws s r u :
  sockets w !! ws = Some s →
  on_message ws r (Register u) w = on_register ws s u w.
Proof. intros Hs. unfold on_message. by rewrite Hs. Qed.

(** X3: registration is last-write-wins. After id [u] is registered on
    socket [k1] and then on socket [k2], the registry maps [u] to [k2],
    both connections carry [u] as their id, every other registry entry
    is as before, and neither the store nor the log has changed. *)
Theorem register_last_write_wins w k1 k2 s1 s2 r1 r2 u :
  sockets w !! k1 = Some s1 → sockets w !! k2 = Some s2 →
  let w' := run [Message k1 r1 (Register u); Message k2 r2 (Register u)] w in
  connections w' !! u = Some k2
  ∧ (∀ v, v ≠ u → connections w' !! v = connections w !! v)
  ∧ (∃ s1', sockets w' !! k1 = Some s1' ∧ userId s1' = Some u)
  ∧ (∃ s2', sockets w' !! k2 = Some s2' ∧ userId s2' = Some u)
  ∧ activeCalls w' = activeCalls w ∧ sent w' = sent w.
Proof.
  intros H1 H2. simpl.
  rewrite (on_message_register w k1 s1 r1 u H1).
  assert (∃ s, sockets (on_register k1 s1 u w) !! k2 = Some s) as [s Hs].
  { unfold on_register. simpl. destruct (decide (k1 = k2)) as [->|Hne].
    - rewrite lookup_insert_eq. eauto.
    - rewrite lookup_insert_ne; eauto. }
  rewrite (on_message_register _ k2 s r2 u Hs).
  unfold on_register. simpl. rewrite !lookup_insert_eq.
  split; [done|]. split; [intros v Hv; by rewrite !lookup_insert_ne|].
  split; [|by eauto].
  destruct (decide (k1 = k2)) as [->|Hne].
  - rewrite lookup_insert_eq. eauto.
  - rewrite lookup_insert_ne, lookup_insert_eq; eauto.
Qed.

Lemma register_last_write_wins_witness :
  connections (run [Message 1 no_draw (Register "carol");
                    Message 2 no_draw (Register "carol")] two_users)
    !! "carol" = Some 2.
Proof.
  apply (register_last_write_wins two_users 1 2
           (mkSocket (Some "alice") OPEN) (mkSocket (Some "bob") OPEN));
    by_computation.
Defined.

(** X4: the close handler forgets only the id the connection registered
    last. When a connection registers id [a], then a different,
    non-empty id [b], and closes, [b] is removed from the registry but
    [a] still maps to the closed socket. *)
Theorem reregistered_id_stays_after_close w ws s r1 r2 a b :
  sockets w !! ws = Some s → a ≠ b → b ≠ EmptyString →
  let w' := run [Message ws r1 (Register a); Message ws r2 (Register b);
                 Close ws] w in
  connections w' !! a = Some ws ∧ connections w' !! b = None
  ∧ ws_open w' ws = false.
Proof.
  intros Hs Hab Hb. simpl.
  rewrite (on_message_register w ws s r1 a Hs).
  rewrite (on_message_register _ ws (mkSocket (Some a) (readyState s)) r2 b);
    [|unfold on_register; simpl; by rewrite lookup_insert_eq].
  unfold on_close, on_register. simpl. rewrite lookup_insert_eq. simpl.
  rewrite decide_False; [|done]. unfold ws_open.
  rewrite close_loop_connections, close_loop_sockets. simpl.
  rewrite lookup_delete_eq, lookup_delete_ne, lookup_insert_ne; [|done..].
  by rewrite !lookup_insert_eq.
Qed.

Lemma reregistered_id_stays_after_close_witness :
  let w' := run [Message 1 no_draw (Register "al"); Message 1 no_draw (Register "alice");
                 Close 1] two_users in
  connections w' !! "al" = Some 1 ∧ connections w' !! "alice" = None
  ∧ ws_open w' 1 = false.
Proof.
  apply (reregistered_id_stays_after_close two_users 1
           (mkSocket (Some "alice") OPEN)); [by_computation | done | done].
Defined.

(** ** Ending a stored call *)

(** X5: a call-reject or call-end frame that names a stored session
    removes exactly that session, whoever sends it, and changes neither
    registry nor sockets. Its only frame is call-rejected, respectively
    call-ended without a reason, offered to the socket registered for
    the receiver when the sender is the caller, and for the caller in
    every other case, also when the sender is no party of the call. *)
Theorem call_end_removes_and_notifies w ws s r (reject : bool) cid c :
  sockets w !! ws = Some s → Map_get cid (activeCalls w) = Some c →
  let w' := on_message ws r (if reject then CallReject cid else CallEnd cid) w in
  Map_get cid (activeCalls w') = None
  ∧ (∀ k, k ≠ cid → Map_get k (activeCalls w') = Map_get k (activeCalls w))
  ∧ connections w' = connections w ∧ sockets w' = sockets w
  ∧ sent w' = sent w
              ++ delivery w (connections_get w (otherUserId c (userId s)))
                   (if reject then CallRejected cid else CallEnded cid None)
  ∧ (userId s = callerId c → otherUserId c (userId s) = Some (receiverId c))
  ∧ (userId s ≠ callerId c → otherUserId c (userId s) = callerId c).
Proof.
  intros Hs Hget. simpl.
  assert (on_message ws r (if reject then CallReject cid else CallEnd cid) w
          = on_call_end s reject cid w) as ->.
  { unfold on_message. rewrite Hs. by destruct reject. }
  rewrite (on_call_end_present _ _ _ _ c Hget). simpl.
  split; [apply Map_get_delete_eq|].
  split; [intros k Hk; by apply Map_get_delete_ne|].
  repeat split.
  - intros ->. apply otherUserId_caller.
  - intros Hne. unfold otherUserId. rewrite decide_False; [done|]. congruence.
Qed.

Lemma call_end_removes_and_notifies_witness :
  let w' := on_message 2 no_draw (CallReject "9ab7q") ringing_call in
  Map_get "9ab7q" (activeCalls w') = None
  ∧ sent w' = sent ringing_call ++ [(1, CallRejected "9ab7q")].
Proof.
  destruct (call_end_removes_and_notifies ringing_call 2
              (mkSocket (Some "bob") OPEN) no_draw true "9ab7q"
              (mkCall "9ab7q" (Some "alice") "bob" video ringing))
    as (H1 & _ & _ & _ & H5 & _); [by_computation.. |].
  split; [exact H1 | exact H5].
Defined.

(** ** What the handlers leave alone *)

(** X6: only a register frame and a disconnect touch the registry:
    every other frame, whatever its content and whether or not it
    names a stored call, leaves [connections] and every socket's id
    and state as they were. *)
Theorem call_frames_leave_registry w ws r m :
  (∀ u, m ≠ Register u) →
  connections (on_message ws r m w) = connections w
  ∧ sockets (on_message ws r m w) = sockets w.
Proof.
  intros Hm. unfold on_message. destruct (sockets w !! ws) as [s|]; [|done].
  destruct m as [u|recv offer ct name|cid answer|cid|cid|cid cand|]; try done.
  - by destruct (Hm u).
  - split; [apply on_call_offer_connections | apply on_call_offer_sockets].
  - destruct (Map_get cid (activeCalls w)) as [c|] eqn:Hget.
    + by rewrite (on_call_answer_present _ _ _ c Hget).
    + by rewrite on_call_answer_absent.
  - destruct (Map_get cid (activeCalls w)) as [c|] eqn:Hget.
    + by rewrite (on_call_end_present _ _ _ _ c Hget).
    + by rewrite on_call_end_absent.
  - destruct (Map_get cid (activeCalls w)) as [c|] eqn:Hget.
    + by rewrite (on_call_end_present _ _ _ _ c Hget).
    + by rewrite on_call_end_absent.
  - destruct (Map_get cid (activeCalls w)) as [c|] eqn:Hget.
    + by rewrite (on_ice_candidate_present _ _ _ _ c Hget).
    + by rewrite on_ice_candidate_absent.
Qed.

Lemma call_frames_leave_registry_witness :
  connections (on_message 2 no_draw (CallEnd "9ab7q") active_call)
  = connections active_call.
Proof. apply (call_frames_leave_registry active_call 2 no_draw); done. Defined.

Lemma generates_dec cid e : Decision (generates cid e).
Proof.
  destruct e as [ws|ws r m|ws]; simpl; try (right; tauto).
  destruct m; simpl; try (right; tauto). apply _.
Qed.

(** X7: sessions come into the store only through call-offer frames. If
    an id under which nothing was stored holds a session after a step,
    the step handled a call-offer whose draw yields that id; no
    call-answer, call-reject, call-end, ice-candidate or register
    frame, and no connect or disconnect, ever adds a session. *)
Theorem sessions_only_created_by_offers w e cid :
  Map_get cid (activeCalls w) = None →
  is_Some (Map_get cid (activeCalls (step e w))) →
  generates cid e.
Proof.
  intros Habs [c Hc]. destruct (generates_dec cid e) as [Hg|Hg]; [done|].
  rewrite (absent_step w cid e Habs Hg) in Hc. done.
Qed.

Lemma sessions_only_created_by_offers_witness :
  generates "9ab7q"
    (Message 1 "0.k3j2x9ab7q" (CallOffer "bob" JNull video "Alice")).
Proof.
  apply (sessions_only_created_by_offers two_users); [by_computation|].
  exists (mkCall "9ab7q" (Some "alice") "bob" video ringing). by_computation.
Defined.

(** A property of the stored entries that answering keeps and that
    every newly offered entry has is kept by every step. *)
Lemma step_entries_Forall (P : string * Call → Prop) w e :
  (∀ k c, P (k, c) → P (k, set_status active c)) →
  (∀ ws r recv offer ct name s,
     e = Message ws r (CallOffer recv offer ct name) →
     sockets w !! ws = Some s →
     P (substring_from 7 r,
        mkCall (substring_from 7 r) (userId s) recv ct ringing)) →
  Forall P (activeCalls w) → Forall P (activeCalls (step e w)).
Proof.
  intros Hact Hnew Hw. destruct e as [ws|ws r m|ws]; simpl.
  - unfold on_connection. by destruct (sockets w !! ws).
  - unfold on_message. destruct (sockets w !! ws) as [s|] eqn:Hs; [|done].
    destruct m as [u|recv offer ct name|cid answer|cid|cid|cid cand|]; try done.
    + rewrite on_call_offer_calls. apply Forall_Map_set; [done|].
      by eapply Hnew.
    + destruct (Map_get cid (activeCalls w)) as [c|] eqn:Hget.
      * rewrite (on_call_answer_present _ _ _ c Hget). simpl.
        apply Forall_Map_set; [done|]. apply Hact.
        apply Map_get_Some_elem in Hget.
        by apply (proj1 (Forall_forall _ _) Hw (cid, c)).
      * by rewrite on_call_answer_absent.
    + rewrite on_call_end_calls. by apply Forall_Map_delete.
    + rewrite on_call_end_calls. by apply Forall_Map_delete.
    + destruct (Map_get cid (activeCalls w)) as [c|] eqn:Hget.
      * by rewrite (on_ice_candidate_present _ _ _ _ c Hget).
      * by rewrite on_ice_candidate_absent.
  - by apply on_close_Forall.
Qed.

(** X8: in every world the server reaches, a stored session carries in
    its [callId] field the key it is stored under, so the id in a frame
    built from the key and the id recorded in the session agree. *)
Theorem stored_call_id_is_its_key tr k c :
  Map_get k (activeCalls (run tr init)) = Some c → callId c = k.
Proof.
  intros Hget.
  assert (Forall (λ x, callId x.2 = x.1) (activeCalls (run tr init))) as Hinv.
  { apply (run_invariant (λ w, Forall (λ x, callId x.2 = x.1) (activeCalls w)));
      [|constructor].
    intros w e Hw. apply step_entries_Forall; [done| |done].
    by intros ws r recv offer ct name s _ _. }
  apply Map_get_Some_elem in Hget.
  by apply (proj1 (Forall_forall _ _) Hinv (k, c)).
Qed.

Lemma stored_call_id_is_its_key_witness :
  callId (mkCall "9ab7q" (Some "alice") "bob" video active) = "9ab7q".
Proof.
  apply (stored_call_id_is_its_key
           [Connection 1; Message 1 no_draw (Register "alice");
            Connection 2; Message 2 no_draw (Register "bob");
            Message 1 "0.k3j2x9ab7q" (CallOffer "bob" JNull video "Alice");
            Message 2 no_draw (CallAnswer "9ab7q" (JStr "sdp"))]).
  by_computation.
Defined.

(** ** The shape of the generated id *)

Lemma substring_from_length n :
  ∀ s, String.length (substring_from n s) = (String.length s - n)%nat.
Proof.
  induction n as [|n IH]; intros s; simpl.
  - lia.
  - destruct s as [|a s]; simpl; [done|]. apply IH.
Qed.

Lemma substring_from_append pre tail :
  substring_from (String.length pre) (String.append pre tail) = tail.
Proof. induction pre as [|a pre IH]; simpl; [by destruct tail | done]. Qed.

(** X9: the generated call id is the draw without its first seven
    characters: a draw made of a seven-character prefix and a tail
    gives the tail, the id of any draw is seven characters shorter
    than the draw, and a draw of at most seven characters gives the
    empty id. *)
Theorem call_id_is_the_draw_without_seven_characters :
  (∀ pre tail, String.length pre = 7%nat →
               substring_from 7 (String.append pre tail) = tail)
  ∧ (∀ r, String.length (substring_from 7 r) = (String.length r - 7)%nat)
  ∧ (∀ r, (String.length r ≤ 7)%nat → substring_from 7 r = EmptyString).
Proof.
  split; [|split].
  - intros pre tail <-. apply substring_from_append.
  - intros r. apply substring_from_length.
  - intros r Hr. pose proof (substring_from_length 7 r) as Hlen.
    destruct (substring_from 7 r); [done|]. simpl in Hlen. lia.
Qed.

Lemma call_id_is_the_draw_without_seven_characters_witness :
  substring_from 7 (String.append "0.k3j2x" "9ab7q") = "9ab7q"
  ∧ substring_from 7 "0.i" = EmptyString.
Proof.
  destruct call_id_is_the_draw_without_seven_characters as (H1 & _ & H3).
  split; [by apply H1 | apply H3; simpl; lia].
Defined.

(** * The message route *)

Module RoutesFacts.
Import Schema Routes.







(** X12: validation never rejects a member's message that is not of
    type "file": whatever its other fields, the handler passes it to
    the storage, addressed to the other member, and answers with the
    stored message, or with status 500 when the storage fails. *)
Theorem member_message_of_other_type_is_stored g c uid cid data chat :
  g cid = Ok (Some chat) → user1Id chat = uid ∨ user2Id chat = uid →
  ins_messageType data ≠ Some "file" →
  post_message g c uid cid (Some data)
  = match c uid (with_toUserId (if bool_decide (user1Id chat = uid)
                                then user2Id chat else user1Id chat) data)
    with
    | Ok message => Json_message message
    | Throws => Status 500 "Failed to send message"
    end.
Proof.
  intros Hg Hmem Hty. unfold post_message. rewrite Hg.
  assert (bool_decide (user1Id chat ≠ uid) && bool_decide (user2Id chat ≠ uid)
          = false) as ->.
  { apply andb_false_iff.
    destruct Hmem; [left|right]; by apply bool_decide_eq_false_2; intros ?. }
  unfold validate_file. by rewrite bool_decide_eq_false_2.
Qed.

Lemma member_message_of_other_type_is_stored_witness :
  post_message one_chat store_it "alice" "c1"
    (Some (mkInsertMessage "x" "hello" (Some "voice") None
             (Some 99999999%Z) None (Some true)))
  = Json_message (mkMessage "m1" "alice" "bob" "hello" (Some "voice") None
                    (Some 99999999%Z) None (Some true) None (Some false)
                    None None).
Proof.
  rewrite (member_message_of_other_type_is_stored one_chat store_it "alice"
             "c1" _ (mkChat "c1" "alice" "bob" None None None));
    [reflexivity | reflexivity | by left | discriminate].
Defined.

End RoutesFacts.

(** * The in-memory storage *)

Module JsMapFacts.
Import JsMap.
Section facts.
Context {V : Type}.
Implicit Types (m : list (string * V)) (k : string) (v : V).

Lemma get_set_eq k v m : get k (set k v m) = Some v.
Proof.
  induction m as [|[k' v'] m IH]; simpl.
  - by rewrite decide_True.
  - destruct (decide (k' = k)) as [->|Hne]; simpl.
    + by rewrite decide_True.
    + by rewrite decide_False.
Qed.

Lemma get_None k m : get k m = None ↔ k ∉ m.*1.
Proof.
  induction m as [|[k' v'] m IH]; simpl.
  - split; [intros _; apply not_elem_of_nil | done].
  - rewrite not_elem_of_cons. destruct (decide (k' = k)) as [->|Hne].
    + split; [done | by intros [? _]].
    + rewrite IH. split; [intros ?; by split | by intros [_ ?]].
Qed.

Lemma get_elem k v m : NoDup m.*1 → (k, v) ∈ m → get k m = Some v.
Proof.
  induction m as [|[k' v'] m IH]; simpl.
  - intros _ H. by apply elem_of_nil in H.
  - rewrite NoDup_cons. intros [Hk Hm] [Heq|Hin]%elem_of_cons.
    + injection Heq as -> ->. by rewrite decide_True.
    + destruct (decide (k' = k)) as [->|Hne]; [|by apply IH].
      exfalso. apply Hk. apply list_elem_of_fmap. by exists (k, v).
Qed.

Lemma elem_of_values_set k v m : v ∈ values (set k v m).
Proof.
  unfold values. induction m as [|[k' v'] m IH]; simpl.
  - apply list_elem_of_here.
  - destruct (decide (k' = k)); rewrite fmap_cons; simpl.
    + apply list_elem_of_here.
    + by apply list_elem_of_further.
Qed.

Lemma delete_set k v m : delete k (set k v m) = delete k m.
Proof.
  unfold delete. induction m as [|[k' v'] m IH]; simpl.
  - rewrite filter_cons. simpl. by rewrite decide_False; [|intros H; apply H].
  - destruct (decide (k' = k)) as [->|Hne].
    + rewrite !filter_cons. simpl.
      by rewrite !decide_False; [| intros H; by apply H..].
    + rewrite !filter_cons. simpl. rewrite !decide_True; [|done..].
      by rewrite IH.
Qed.

Lemma NoDup_keys_filter (P : string * V → Prop) `{!∀ x, Decision (P x)} m :
  NoDup m.*1 → NoDup (filter P m).*1.
Proof.
  induction m as [|[k' v'] m IH]; simpl; [done|].
  rewrite NoDup_cons. intros [Hk Hm]. rewrite filter_cons.
  destruct (decide (P (k', v'))); [|by apply IH].
  rewrite fmap_cons. simpl. apply NoDup_cons. split; [|by apply IH].
  intros Hin. apply Hk. apply list_elem_of_fmap in Hin as [[k0 c0] [-> Hin]].
  apply list_elem_of_filter in Hin as [_ Hin]. apply list_elem_of_fmap.
  by exists (k0, c0).
Qed.

Lemma get_filter (P : string * V → Prop) `{!∀ x, Decision (P x)} k v m :
  NoDup m.*1 → get k m = Some v →
  get k (filter P m) = if decide (P (k, v)) then Some v else None.
Proof.
  induction m as [|[k' v'] m IH]; simpl; [done|].
  rewrite NoDup_cons. intros [Hk Hm]. rewrite filter_cons.
  destruct (decide (k' = k)) as [->|Hne].
  - intros [= ->]. destruct (decide (P (k, v))); simpl.
    + by rewrite decide_True.
    + apply get_None. intros Hin. apply Hk.
      apply list_elem_of_fmap in Hin as [x [-> Hin]].
      apply list_elem_of_filter in Hin as [_ Hin].
      apply list_elem_of_fmap. by exists x.
  - intros Hget. destruct (decide (P (k', v'))); simpl.
    + rewrite decide_False; [|done]. by apply IH.
    + by apply IH.
Qed.

Lemma get_filter_None (P : string * V → Prop) `{!∀ x, Decision (P x)} k m :
  get k m = None → get k (filter P m) = None.
Proof.
  rewrite !get_None. intros Hk Hin. apply Hk.
  apply list_elem_of_fmap in Hin as [x [-> Hin]].
  apply list_elem_of_filter in Hin as [_ Hin].
  apply list_elem_of_fmap. by exists x.
Qed.

Lemma values_filter (P : V → Prop) `{!∀ x, Decision (P x)} m :
  values (filter (λ e, P e.2) m) = filter P (values m).
Proof.
  unfold values. induction m as [|[k v] m IH]; [done|].
  rewrite fmap_cons, !filter_cons. simpl.
  destruct (decide (P v)); [rewrite fmap_cons; simpl|]; by rewrite IH.
Qed.

Lemma delete_where_spec (p : V → bool) es :
  ∀ m, delete_where p es m
       = filter (λ e, e.1 ∉ (filter (λ e', p e'.2) es).*1) m.
Proof.
  induction es as [|[k v] es IH]; intros m; simpl.
  - symmetry. apply filter_all. intros x _. apply not_elem_of_nil.
  - rewrite filter_cons. simpl. destruct (p v) eqn:Hp.
    + rewrite decide_True; [|done]. rewrite IH. unfold delete.
      rewrite list_filter_filter. apply list_filter_iff.
      intros x. rewrite fmap_cons, not_elem_of_cons. simpl. tauto.
    + rewrite decide_False; [apply IH|]. by intros ?.
Qed.

(** The deleting loop over a map with unique keys keeps exactly the
    entries whose value fails the test. *)
Lemma delete_where_all (p : V → bool) m :
  NoDup m.*1 → delete_where p m m = filter (λ e, ¬ p e.2) m.
Proof.
  intros Hm. rewrite delete_where_spec. apply filter_iff_in.
  intros [k v] Hin. simpl. split.
  - intros Hk Hp. apply Hk. apply list_elem_of_fmap. exists (k, v).
    split; [done|]. by apply list_elem_of_filter.
  - intros Hp Hk. apply list_elem_of_fmap in Hk as [[k' v'] [Heq Hk]].
    simpl in Heq. subst k'. apply list_elem_of_filter in Hk as [Hv' Hin'].
    simpl in Hv'. apply (get_elem _ _ _ Hm) in Hin, Hin'. congruence.
Qed.

End facts.
End JsMapFacts.

Module MemStorageFacts.
Import Schema JsMap JsMapFacts MemStorage.

Lemma same_pair_comm a b chat : same_pair a b chat = same_pair b a chat.
Proof. unfold same_pair. apply orb_comm. Qed.

Lemma find_chat_comm a b cs : find_chat a b cs = find_chat b a cs.
Proof.
  induction cs as [|chat cs IH]; simpl; [done|].
  by rewrite same_pair_comm, IH.
Qed.

Lemma find_chat_Some a b cs chat :
  find_chat a b cs = Some chat → same_pair a b chat = true.
Proof.
  induction cs as [|c cs IH]; simpl; [done|].
  destruct (same_pair a b c) eqn:Hc; [by intros [= <-] | done].
Qed.

Lemma find_chat_set_new a b k chat (m : list (string * Chat)) :
  find_chat a b (values m) = None → same_pair a b chat = true →
  find_chat a b (values (set k chat m)) = Some chat.
Proof.
  unfold values. intros Hnone Hchat.
  induction m as [|[k' c'] m IH]; simpl in *.
  - by rewrite Hchat.
  - destruct (same_pair a b c') eqn:Hc'; [done|].
    destruct (decide (k' = k)); rewrite fmap_cons; simpl.
    + by rewrite Hchat.
    + rewrite Hc'. by apply IH.
Qed.

Lemma getOrCreateChat_found newId t1 t2 a b st chat :
  find_chat a b (values (chats st)) = Some chat →
  getOrCreateChat newId t1 t2 a b st = (chat, st).
Proof. intros H. unfold getOrCreateChat. by rewrite H. Qed.

Lemma getOrCreateChat_finds newId t1 t2 a b st :
  find_chat a b (values (chats (getOrCreateChat newId t1 t2 a b st).2))
  = Some (getOrCreateChat newId t1 t2 a b st).1.
Proof.
  unfold getOrCreateChat.
  destruct (find_chat a b (values (chats st))) as [chat|] eqn:Hfind; simpl.
  - done.
  - apply find_chat_set_new; [done|]. unfold same_pair. simpl.
    by repeat (rewrite bool_decide_eq_true_2 by done).
Qed.

(** X13: [getOrCreateChat] does not depend on the order of the two
    users and creates a chat at most once per pair: after a call for
    (a, b), a call for (b, a) or for (a, b) again returns the same chat
    and leaves the storage as it was; the chat returned is between the
    two users. *)
Theorem getOrCreateChat_once_per_pair newId t1 t2 a b st newId' t1' t2' :
  let r := getOrCreateChat newId t1 t2 a b st in
  getOrCreateChat newId' t1' t2' b a r.2 = r
  ∧ getOrCreateChat newId' t1' t2' a b r.2 = r
  ∧ same_pair a b r.1 = true.
Proof.
  simpl. pose proof (getOrCreateChat_finds newId t1 t2 a b st) as Hfind.
  destruct (getOrCreateChat newId t1 t2 a b st) as [chat st1]. simpl in *.
  split; [|split].
  - apply getOrCreateChat_found. by rewrite find_chat_comm.
  - by apply getOrCreateChat_found.
  - by apply find_chat_Some in Hfind.
Qed.

Lemma find_chat_touch a b f (cs : list (string * Chat)) :
  (∀ chat, same_pair a b (f chat) = same_pair a b chat) →
  find_chat a b (values (touch_chat a b f cs))
  = f <$> find_chat a b (values cs).
Proof.
  unfold values. intros Hf. induction cs as [|[k chat] cs IH]; simpl; [done|].
  destruct (same_pair a b chat) eqn:Hc; rewrite fmap_cons; simpl.
  - by rewrite Hf, Hc.
  - by rewrite Hc, IH.
Qed.

(** X14: [createMessage] stores the new message, unseen, under its id,
    from the given sender to the recipient of the data, and leaves a
    chat between the two whose last message is the new one: the first
    chat of the pair, created if there was none, has [lastMessageId]
    set to the message id and [lastMessageAt] to its creation time, and
    a later [getOrCreateChat] for the pair, in either order, returns
    that chat without creating one. *)
Theorem createMessage_sets_last_message
    messageId chatId tExpire tCreated t1 t2 from data st :
  let r := createMessage messageId chatId tExpire tCreated t1 t2 from data st in
  get messageId (messages r.2) = Some r.1
  ∧ msg_id r.1 = messageId ∧ fromUserId r.1 = from
  ∧ toUserId r.1 = ins_toUserId data ∧ isSeen r.1 = Some false
  ∧ ∃ chat,
      lastMessageId chat = Some messageId
      ∧ lastMessageAt chat = Some tCreated
      ∧ same_pair from (ins_toUserId data) chat = true
      ∧ ∀ newId' t1' t2',
          getOrCreateChat newId' t1' t2' from (ins_toUserId data) r.2
          = (chat, r.2)
          ∧ getOrCreateChat newId' t1' t2' (ins_toUserId data) from r.2
            = (chat, r.2).
Proof.
  simpl. unfold createMessage.
  set (message := mkMessage _ _ _ _ _ _ _ _ _ _ _ _ _).
  set (st1 := mkStore _ _ _).
  pose proof (getOrCreateChat_finds chatId t1 t2 from (ins_toUserId data) st1)
    as Hfind.
  destruct (getOrCreateChat chatId t1 t2 from (ins_toUserId data) st1)
    as [chat0 st2] eqn:Hg. simpl in *.
  assert (messages st2 = messages st1) as Hmsgs.
  { unfold getOrCreateChat in Hg.
    destruct (find_chat _ _ _); injection Hg as _ <-; done. }
  split. { rewrite Hmsgs. apply get_set_eq. }
  repeat (split; [done|]).
  set (f := λ chat : Chat, mkChat _ _ _ _ _ _).
  assert (∀ chat, same_pair from (ins_toUserId data) (f chat)
                  = same_pair from (ins_toUserId data) chat) as Hf by done.
  exists (f chat0). split; [done|]. split; [done|].
  split; [rewrite Hf; by apply find_chat_Some in Hfind|].
  intros newId' t1' t2'. split; apply getOrCreateChat_found; simpl.
  - by rewrite find_chat_touch, Hfind.
  - by rewrite find_chat_comm, find_chat_touch, Hfind.
Qed.

Lemma elem_of_getTypingIndicators now c v st i :
  i ∈ getTypingIndicators now c v st ↔
  i ∈ values (typingIndicators st)
  ∧ ti_chatId i = c ∧ ti_userId i ≠ v
  ∧ (now - 5 * 1000 < date_value (ti_createdAt i))%Z.
Proof.
  unfold getTypingIndicators, shown. rewrite list_elem_of_filter.
  rewrite !andb_True, !bool_decide_spec. tauto.
Qed.

(** X15: typing indicators. After [setTypingIndicator(u, c, true)] at
    time [now], every other user who asks for chat [c] less than five
    seconds later is shown the new indicator. Whatever is stored, an
    indicator that is shown belongs to the chat asked for, is not the
    asking user's own, and is younger than five seconds. And when the
    indicators are stored under their keys, after
    [setTypingIndicator(u, c, false)] no indicator of [u] is shown for
    chat [c]. *)
Theorem typing_indicator_shown_until_stopped newId now u c st :
  let st1 := setTypingIndicator newId now u c true st in
  (∀ t v, v ≠ u → (t - 5000 < now)%Z →
     mkTypingIndicator newId u c (Some true) (Some now)
     ∈ getTypingIndicators t c v st1)
  ∧ (∀ t c' v i, i ∈ getTypingIndicators t c' v st1 →
       ti_chatId i = c' ∧ ti_userId i ≠ v
       ∧ (t - 5000 < date_value (ti_createdAt i))%Z)
  ∧ (keyed st →
     ∀ newId' now' t v i,
       i ∈ getTypingIndicators t c v
             (setTypingIndicator newId' now' u c false st1) →
       ti_userId i ≠ u).
Proof.
  simpl. split; [|split].
  - intros t v Hv Ht. apply elem_of_getTypingIndicators. simpl.
    split; [apply elem_of_values_set|]. repeat split; [congruence | lia].
  - intros t c' v i Hi. apply elem_of_getTypingIndicators in Hi. tauto.
  - intros Hkeyed newId' now' t v i Hi Hu.
    apply elem_of_getTypingIndicators in Hi as (Hin & Hc & _ & _).
    simpl in Hin. rewrite delete_set in Hin. unfold values in Hin.
    apply list_elem_of_fmap in Hin as [[k i'] [-> Hin]]. simpl in *.
    apply list_elem_of_filter in Hin as [Hk Hin]. simpl in Hk.
    apply (proj1 (Forall_forall _ _) Hkeyed) in Hin. simpl in Hin.
    apply Hk. by rewrite Hin, Hu, Hc.
Qed.

Lemma typing_indicator_shown_until_stopped_witness :
  mkTypingIndicator "i1" "alice" "c1" (Some true) (Some 1000%Z)
  ∈ getTypingIndicators 5999 "c1" "bob"
      (setTypingIndicator "i1" 1000 "alice" "c1" true empty)
  ∧ ∀ i, i ∈ getTypingIndicators 5999 "c1" "bob"
               (setTypingIndicator "i2" 2000 "alice" "c1" false
                  (setTypingIndicator "i1" 1000 "alice" "c1" true empty)) →
         ti_userId i ≠ "alice".
Proof.
  destruct (typing_indicator_shown_until_stopped "i1" 1000 "alice" "c1" empty)
    as (H1 & _ & H3).
  split.
  - apply H1; [discriminate | lia].
  - intros i. apply H3. constructor.
Defined.

Lemma shown_not_old now c v i : shown now c v i → ¬ old now i.
Proof.
  unfold shown, old. rewrite !andb_True, !bool_decide_spec. lia.
Qed.

(** X16: [cleanupOldTypingIndicators] removes exactly the indicators
    that are five seconds old or older, and so never changes what
    [getTypingIndicators] returns at that moment, for any chat and any
    asking user. *)
Theorem cleanup_keeps_what_is_shown now st :
  NoDup (typingIndicators st).*1 →
  let st' := cleanupOldTypingIndicators now st in
  typingIndicators st' = filter (λ e, ¬ old now e.2) (typingIndicators st)
  ∧ messages st' = messages st ∧ chats st' = chats st
  ∧ ∀ c v, getTypingIndicators now c v st' = getTypingIndicators now c v st.
Proof.
  intros Hnd. simpl. rewrite delete_where_all; [|done].
  repeat split. intros c v.
  unfold getTypingIndicators, cleanupOldTypingIndicators.
  cbn [typingIndicators]. rewrite delete_where_all; [|done].
  pose proof (values_filter (λ i, ¬ old now i) (typingIndicators st)) as Hv.
  cbv beta in Hv. rewrite Hv, list_filter_filter.
  apply list_filter_iff. intros i. split; [tauto|].
  intros Hi. split; [done|]. by eapply shown_not_old.
Qed.

Lemma cleanup_keeps_what_is_shown_witness :
  let st := setTypingIndicator "i2" 6000 "bob" "c1" true
              (setTypingIndicator "i1" 1000 "alice" "c1" true empty) in
  typingIndicators (cleanupOldTypingIndicators 6500 st)
  = filter (λ e, ¬ old 6500 e.2) (typingIndicators st)
  ∧ getTypingIndicators 6500 "c1" "alice" (cleanupOldTypingIndicators 6500 st)
    = getTypingIndicators 6500 "c1" "alice" st.
Proof.
  destruct (cleanup_keeps_what_is_shown 6500
              (setTypingIndicator "i2" 6000 "bob" "c1" true
                 (setTypingIndicator "i1" 1000 "alice" "c1" true empty)))
    as (H1 & _ & _ & H4).
  - apply (bool_decide_unpack _). by vm_compute.
  - split; [exact H1 | apply H4].
Defined.

(** X17: [deleteExpiredWhisperMessages] at time [now] removes exactly
    the whisper messages whose expiry is [now] or earlier: every other
    message, whisper or not, stays under its id unchanged, nothing is
    added, chats and typing indicators are untouched, and running it
    again at the same time changes nothing. *)
Theorem expired_whispers_are_deleted now st :
  NoDup (messages st).*1 →
  let st' := deleteExpiredWhisperMessages now st in
  (∀ k m, get k (messages st) = Some m →
          get k (messages st') = if expired now m then None else Some m)
  ∧ (∀ k, get k (messages st) = None → get k (messages st') = None)
  ∧ chats st' = chats st ∧ typingIndicators st' = typingIndicators st
  ∧ deleteExpiredWhisperMessages now st' = st'.
Proof.
  intros Hnd. simpl. unfold deleteExpiredWhisperMessages. simpl.
  rewrite delete_where_all; [|done]. split; [|split].
  - intros k m Hget. rewrite (get_filter _ k m); [|done..]. simpl.
    destruct (expired now m); [by rewrite decide_False; [|intros H; apply H]|].
    by rewrite decide_True; [|intros H].
  - intros k Hget. by apply get_filter_None.
  - repeat split. f_equal. rewrite delete_where_all; [|by apply NoDup_keys_filter].
    rewrite list_filter_filter. apply list_filter_iff. tauto.
Qed.

Lemma expired_whispers_are_deleted_witness :
  let st := (createMessage "m2" "c9" 2000 2000 0 0 "bob"
               (mkInsertMessage "alice" "plain" None None None None None)
               (createMessage "m1" "c1" 1000 1000 1000 1000 "alice"
                  (mkInsertMessage "bob" "psst" None None None None (Some true))
                  empty).2).2 in
  get "m1" (messages (deleteExpiredWhisperMessages 11000 st)) = None
  ∧ is_Some (get "m1" (messages (deleteExpiredWhisperMessages 10999 st)))
  ∧ is_Some (get "m2" (messages (deleteExpiredWhisperMessages 11000 st))).
Proof.
  set (st := (createMessage "m2" _ _ _ _ _ _ _ _).2).
  destruct (expired_whispers_are_deleted 11000 st) as (H1 & _);
    [apply (bool_decide_unpack _); by vm_compute|].
  destruct (expired_whispers_are_deleted 10999 st) as (H2 & _);
    [apply (bool_decide_unpack _); by vm_compute|].
  split; [|split].
  - rewrite (H1 "m1" (mkMessage "m1" "alice" "bob" "psst" (Some "text") None
                        None None (Some true) (Some 11000%Z) (Some false) None
                        (Some 1000%Z))); by_computation.
  - rewrite (H2 "m1" (mkMessage "m1" "alice" "bob" "psst" (Some "text") None
                        None None (Some true) (Some 11000%Z) (Some false) None
                        (Some 1000%Z))); [by eexists | by_computation].
  - rewrite (H1 "m2" (mkMessage "m2" "bob" "alice" "plain" (Some "text") None
                        None None (Some false) None (Some false) None
                        (Some 2000%Z))); [by eexists | by_computation].
Defined.

Lemma to_mark_mark chat u t m : to_mark chat u (mark t m) = false.
Proof.
  unfold to_mark. cbn [isSeen mark].
  rewrite (bool_decide_eq_true_2 (Some true = Some true)); [|done].
  apply andb_false_r.
Qed.

Lemma mark_seen_again clock clock' chat u ms :
  ∀ n n', mark_seen clock' n' chat u (mark_seen clock n chat u ms)
          = mark_seen clock n chat u ms.
Proof.
  induction ms as [|[k m] ms IH]; intros n n'; simpl; [done|].
  destruct (to_mark chat u m) eqn:Hm; simpl.
  - by rewrite to_mark_mark, IH.
  - by rewrite Hm, IH.
Qed.

Lemma mark_seen_keys clock chat u ms :
  ∀ n, (mark_seen clock n chat u ms).*1 = ms.*1.
Proof.
  induction ms as [|[k m] ms IH]; intros n; simpl; [done|].
  destruct (to_mark chat u m); rewrite !fmap_cons; simpl; by rewrite IH.
Qed.

Lemma mark_seen_elem clock chat u ms :
  ∀ n k m', (k, m') ∈ mark_seen clock n chat u ms →
    ∃ m, (k, m) ∈ ms
         ∧ (m' = m ∨ ∃ t, m' = mark t m ∧ to_mark chat u m = true).
Proof.
  induction ms as [|[k0 m0] ms IH]; intros n k m' Hin; simpl in Hin.
  - by apply elem_of_nil in Hin.
  - destruct (to_mark chat u m0) eqn:Hm;
      apply elem_of_cons in Hin as [[= -> ->]|Hin].
    + exists m0. split; [apply list_elem_of_here|]. right. by eexists.
    + apply IH in Hin as (m & Hin & Hm'). exists m.
      split; [by apply list_elem_of_further | done].
    + exists m0. split; [apply list_elem_of_here | by left].
    + apply IH in Hin as (m & Hin & Hm'). exists m.
      split; [by apply list_elem_of_further | done].
Qed.

(** X20: [markMessagesAsSeen(chatId, userId)] only ever changes the
    [isSeen] and [seenAt] fields of stored messages, and only of unseen
    messages addressed to [userId] between the two members of the chat:
    ids and order of the messages, chats and typing indicators stay as
    they are, every message after the call is a message from before,
    unchanged or marked seen, and a second call, at whatever time,
    changes nothing. For an unknown chat nothing changes at all. *)
Theorem markMessagesAsSeen_marks_once clock clock' chatId userId st :
  let st' := markMessagesAsSeen clock chatId userId st in
  markMessagesAsSeen clock' chatId userId st' = st'
  ∧ (messages st').*1 = (messages st).*1
  ∧ chats st' = chats st ∧ typingIndicators st' = typingIndicators st
  ∧ (get chatId (chats st) = None → st' = st)
  ∧ ∀ k m', (k, m') ∈ messages st' →
      ∃ m, (k, m) ∈ messages st
           ∧ (m' = m
              ∨ ∃ t chat, m' = mark t m ∧ get chatId (chats st) = Some chat
                          ∧ toUserId m = userId ∧ isSeen m ≠ Some true
                          ∧ same_pair (fromUserId m) (toUserId m) chat = true).
Proof.
  simpl. unfold markMessagesAsSeen.
  destruct (get chatId (chats st)) as [chat|] eqn:Hchat.
  - simpl. rewrite Hchat. split; [by rewrite mark_seen_again|].
    split; [apply mark_seen_keys|]. repeat (split; [done|]).
    intros k m' Hin. apply mark_seen_elem in Hin as (m & Hin & [->|(t & -> & Hm)]).
    + exists m. by split; [|left].
    + exists m. split; [done|]. right. exists t, chat.
      apply Is_true_true in Hm. unfold to_mark in Hm.
      rewrite !andb_True, negb_True, orb_True, !andb_True in Hm.
      rewrite !bool_decide_spec in Hm. destruct Hm as [[Hto Hpair] Hseen].
      repeat split; try done.
      unfold same_pair. apply Is_true_true.
      rewrite orb_True, !andb_True, !bool_decide_spec.
      destruct Hpair as [[? ?]|[? ?]]; [left|right]; by split.
  - rewrite Hchat. repeat (split; [done|]).
    intros k m' Hin. exists m'. by split; [|left].
Qed.

Lemma markMessagesAsSeen_marks_once_witness :
  let st := (createMessage "m1" "c1" 1000 1000 1000 1000 "alice"
               (mkInsertMessage "bob" "hi" None None None None None) empty).2 in
  get "c1" (chats st) = Some (mkChat "c1" "alice" "bob" (Some "m1")
                                     (Some 1000%Z) (Some 1000%Z))
  ∧ get "m1" (messages (markMessagesAsSeen (λ _, 5000%Z) "c1" "bob" st))
    = Some (mkMessage "m1" "alice" "bob" "hi" (Some "text") None None None
                      (Some false) None (Some true) (Some 5000%Z) (Some 1000%Z))
  ∧ markMessagesAsSeen (λ _, 9000%Z) "c1" "bob"
      (markMessagesAsSeen (λ _, 5000%Z) "c1" "bob" st)
    = markMessagesAsSeen (λ _, 5000%Z) "c1" "bob" st.
Proof.
  split; [by_computation|]. split; [by_computation|].
  apply (markMessagesAsSeen_marks_once (λ _, 5000%Z) (λ _, 9000%Z) "c1" "bob").
Defined.

End MemStorageFacts.

(** * The client's signalling state *)

Module ClientFacts.
Import Client.

(** X18: the client ends a call at most once. [endCall] sends nothing
    or exactly one call-end frame, and it sends one only when the
    socket is open and a non-empty call id is current, which the frame
    then carries. Once [endCall] or [rejectCall] has run, or a
    call-rejected, call-ended or call-failed frame has been handled,
    the next [endCall] sends nothing and no ICE candidate is sent. *)
Theorem client_ends_a_call_at_most_once c :
  (∀ f, f ∈ (endCall c).1 →
        ∃ cid, (endCall c).1 = [CallEnd cid] ∧ currentCallId c = Some cid
               ∧ cid ≠ EmptyString ∧ ws_ready c = true)
  ∧ (endCall (endCall c).2).1 = []
  ∧ (∀ candidate, onicecandidate candidate (endCall c).2 = [])
  ∧ (∀ cid, (endCall (rejectCall cid c).2).1 = []
            ∧ ∀ candidate, onicecandidate candidate (rejectCall cid c).2 = [])
  ∧ (∀ m, match m with
          | CallRejected _ | CallEnded _ _ | CallFailed _ => True
          | _ => False
          end →
          (endCall (handleSignalingMessage m c)).1 = []
          ∧ ∀ candidate,
              onicecandidate candidate (handleSignalingMessage m c) = []).
Proof.
  split; [|split; [done|split; [by intros [cand|]|split]]].
  - intros f. unfold endCall, sendSignalingMessage, truthy. simpl.
    destruct (currentCallId c) as [cid|]; [|by intros ?%elem_of_nil].
    destruct (decide (cid = EmptyString)); [by intros ?%elem_of_nil|].
    destruct (ws_ready c); [|by intros ?%elem_of_nil].
    intros _. by exists cid.
  - intros cid. split; [done | by intros [cand|]].
  - intros m Hm. destruct m; try done; split; try done;
      intros [cand|]; done.
Qed.

Lemma client_ends_a_call_at_most_once_witness :
  (endCall (mkState true (Some "9ab7q"))).1 = [CallEnd "9ab7q"]
  ∧ (endCall (handleSignalingMessage (CallFailed "User not available")
                (mkState true (Some "9ab7q")))).1 = [].
Proof.
  destruct (client_ends_a_call_at_most_once (mkState true (Some "9ab7q")))
    as (H1 & _ & _ & _ & H4).
  split.
  - destruct (H1 (CallEnd "9ab7q")) as (cid & H & [= <-] & _);
      [apply list_elem_of_here | exact H].
  - apply (H4 (CallFailed "User not available")). exact I.
Defined.

Lemma inbox_app ws w w' new :
  sent w' = sent w ++ new →
  inbox ws w w' = (filter (λ e, e.1 = ws) new).*2.
Proof. intros H. unfold inbox. by rewrite H, drop_app_length. Qed.

(** X19: relay and client together. When a caller's offer cannot be
    delivered because the receiver is not registered, the caller's
    socket receives call-initiated and then call-failed; a client that
    handles these two frames has no current call id afterwards, so its
    [endCall] sends no call-end, while the relay still stores the
    session of the offer, ringing. *)
Theorem failed_offer_is_not_ended_by_the_client
    w ws s r recv offer ct name c :
  sockets w !! ws = Some s → readyState s = OPEN →
  connections w !! recv = None →
  let cid := substring_from 7 r in
  let w' := on_message ws r (CallOffer recv offer ct name) w in
  let c' := handle_all (inbox ws w w') c in
  inbox ws w w' = [CallInitiated cid; CallFailed "User not available"]
  ∧ currentCallId c' = None
  ∧ (endCall c').1 = []
  ∧ Map_get cid (activeCalls w')
    = Some (mkCall cid (userId s) recv ct ringing).
Proof.
  intros Hs Hopen Hrecv. simpl.
  assert (on_message ws r (CallOffer recv offer ct name) w
          = on_call_offer ws s r recv offer ct name w) as ->.
  { unfold on_message. by rewrite Hs. }
  rewrite (inbox_app ws w _ _
             (on_call_offer_sent_unreachable ws s r recv offer ct name w
                Hs Hopen Hrecv)).
  rewrite !filter_cons. simpl. rewrite !decide_True; [|done..].
  rewrite filter_nil. simpl.
  repeat split. rewrite on_call_offer_calls. apply Map_get_set_eq.
Qed.

Lemma failed_offer_is_not_ended_by_the_client_witness :
  let w' := on_message 1 "0.k3j2x9ab7q" (CallOffer "ghost" JNull video "Alice")
                       two_users in
  let c' := handle_all (inbox 1 two_users w') (mkState true None) in
  inbox 1 two_users w'
  = [CallInitiated "9ab7q"; CallFailed "User not available"]
  ∧ currentCallId c' = None
  ∧ (endCall c').1 = []
  ∧ Map_get "9ab7q" (activeCalls w')
    = Some (mkCall "9ab7q" (Some "alice") "ghost" video ringing).
Proof.
  apply (failed_offer_is_not_ended_by_the_client two_users 1
           (mkSocket (Some "alice") OPEN) "0.k3j2x9ab7q" "ghost" JNull video
           "Alice" (mkState true None)); by_computation.
Defined.

End ClientFacts.
